(** * EALib digital evolution: scheduler and line of descent

    A shallow embedding of [weighted_round_robin::operator()] (schedulers.h)
    and of [line_of_descent] / [track_fixation_events] (line_of_descent.h),
    with the properties of both that the specification states. *)

From Stdlib Require Import ZArith Lia Floats.SpecFloat.
From stdpp Require Import base option list sorting gmap.

Local Open Scope Z_scope.

(** ** Machine arithmetic used by the scheduler *)

Module Arith.

(** [unsigned int]: 32 bits, wraps. *)
Definition u32 (z : Z) : Z := z mod 2 ^ 32.

(** Conversion of an integer value to [int] (32 bits, two's complement). *)
Definition to_int (z : Z) : Z := (z + 2 ^ 31) mod 2 ^ 32 - 2 ^ 31.

(** Conversion of an integer value to [long] (64 bits, two's complement). *)
Definition to_long (z : Z) : Z := (z + 2 ^ 63) mod 2 ^ 64 - 2 ^ 63.

(** [double] is IEEE 754 binary64. *)
Definition double := spec_float.

Definition of_Z (z : Z) : double := binary_normalize 53 1024 z 0 false.
Definition dmul : double -> double -> double := SFmul 53 1024.
Definition ddiv : double -> double -> double := SFdiv 53 1024.

(** Truncation toward zero of a finite double. *)
Definition truncate (x : double) : option Z :=
  match x with
  | S754_zero _ => Some 0
  | S754_finite s m e =>
      let a := match e with
               | Zneg p => Z.pos m / 2 ^ Z.pos p
               | _ => Z.pos m * 2 ^ e
               end in
      Some (if s then - a else a)
  | S754_infinity _ | S754_nan => None
  end.

(** [static_cast<long>(x)] / implicit conversion [double -> long]:
    undefined when the truncated value is not representable. *)
Definition double_to_long (x : double) : option Z :=
  match truncate x with
  | Some z => if (- 2 ^ 63 <=? z) && (z <? 2 ^ 63) then Some z else None
  | None => None
  end.

(** [static_cast<std::size_t>(x)]. *)
Definition double_to_size_t (x : double) : option Z :=
  match truncate x with
  | Some z => if (0 <=? z) && (z <? 2 ^ 64) then Some z else None
  | None => None
  end.

Lemma u32_range z : 0 <= u32 z < 2 ^ 32.
Proof. unfold u32. apply Z.mod_pos_bound. lia. Qed.

Lemma u32_le z : 0 <= z -> u32 z <= z.
Proof. intros Hz. unfold u32. apply Z.mod_le; lia. Qed.

Lemma to_long_small z : - 2 ^ 63 <= z < 2 ^ 63 -> to_long z = z.
Proof. intros Hz. unfold to_long. rewrite Z.mod_small; lia. Qed.

Lemma to_int_small z : - 2 ^ 31 <= z < 2 ^ 31 -> to_int z = z.
Proof. intros Hz. unfold to_int. rewrite Z.mod_small; lia. Qed.

Lemma to_int_0 : to_int 0 = 0.
Proof. reflexivity. Qed.

(** [to_int] is injective on the range of an [unsigned int]. *)
Lemma to_int_inj x y :
  0 <= x < 2 ^ 32 -> 0 <= y < 2 ^ 32 -> to_int x = to_int y -> x = y.
Proof.
  unfold to_int. intros Hx Hy H.
  assert (E : (x + 2 ^ 31) mod 2 ^ 32 = (y + 2 ^ 31) mod 2 ^ 32) by lia.
  destruct (Z_lt_le_dec x (2 ^ 31)), (Z_lt_le_dec y (2 ^ 31)).
  - rewrite !Z.mod_small in E; lia.
  - rewrite (Z.mod_small (x + _)) in E by lia.
    replace (y + 2 ^ 31) with (y - 2 ^ 31 + 1 * 2 ^ 32) in E by lia.
    rewrite Z.mod_add, Z.mod_small in E; lia.
  - rewrite (Z.mod_small (y + _)) in E by lia.
    replace (x + 2 ^ 31) with (x - 2 ^ 31 + 1 * 2 ^ 32) in E by lia.
    rewrite Z.mod_add, Z.mod_small in E; lia.
  - replace (x + 2 ^ 31) with (x - 2 ^ 31 + 1 * 2 ^ 32) in E by lia.
    replace (y + 2 ^ 31) with (y - 2 ^ 31 + 1 * 2 ^ 32) in E by lia.
    rewrite !Z.mod_add, !Z.mod_small in E; lia.
Qed.

(** The initial value [-1] of [last_period] is not the image of a period
    below [2^32 - 1]. *)
Lemma to_int_not_minus_one x : 0 <= x < 2 ^ 32 - 1 -> to_int x <> -1.
Proof.
  unfold to_int. intros Hx H.
  destruct (Z_lt_le_dec x (2 ^ 31)).
  - rewrite Z.mod_small in H; lia.
  - replace (x + 2 ^ 31) with (x - 2 ^ 31 + 1 * 2 ^ 32) in H by lia.
    rewrite Z.mod_add, Z.mod_small in H; lia.
Qed.

(** A zero budget never yields a non-zero period length. *)
Lemma zero_budget_period dt z :
  double_to_long (dmul (of_Z 0) dt) = Some z -> z = 0.
Proof.
  unfold double_to_long, dmul, of_Z. cbn.
  destruct dt as [s|s| |s m e]; cbn; intros H; inversion H; reflexivity.
Qed.

End Arith.


(** ** The weighted round-robin scheduler (schedulers.h) *)

Module Scheduler.
Import Arith.

(** What one pass of the loop can do besides finishing: the three undefined
    behaviours the C++ text can reach, and running out of the fuel that
    bounds the number of iterations of the model. *)
Inductive outcome (A : Type) : Type :=
| Done (a : A)
| DivideByZero
| OutOfBounds
| BadConversion
| OutOfFuel.

Arguments Done {A} a.
Arguments DivideByZero {A}.
Arguments OutOfBounds {A}.
Arguments BadConversion {A}.
Arguments OutOfFuel {A}.

Definition bind {A B : Type} (o : outcome A) (k : A -> outcome B) : outcome B :=
  match o with
  | Done a => k a
  | DivideByZero => DivideByZero
  | OutOfBounds => OutOfBounds
  | BadConversion => BadConversion
  | OutOfFuel => OutOfFuel
  end.

Notation "'do' x <- o ; k" := (bind o (fun x => k))
  (at level 10, x name, o at level 100, k at level 200).

(** Calls the scheduler makes on its collaborators, most recent first. *)
Inductive event : Type :=
| Update (period : Z) (dt : double)   (* ea.resources().update(dt) *)
| Executed (i : nat) (n : Z).         (* population[i]->execute(n, ...) *)

(** The log holds the most recent call first; these read it oldest first. *)
Definition logged_periods (l : list event) : list Z :=
  omap (fun e => match e with Update p _ => Some p | _ => None end) l.

Definition logged_steps (l : list event) : list double :=
  omap (fun e => match e with Update _ dt => Some dt | _ => None end) l.

Definition logged_executions (l : list event) : list (nat * Z) :=
  omap (fun e => match e with Executed i n => Some (i, n) | _ => None end) l.

(** Periods for which the resource pool was updated. *)
Definition update_periods (l : list event) : list Z := reverse (logged_periods l).

(** The argument of each update of the resource pool. *)
Definition update_steps (l : list event) : list double := reverse (logged_steps l).

(** The individuals executed (by index) and the quantum each was granted. *)
Definition executions (l : list event) : list (nat * Z) :=
  reverse (logged_executions l).

(** [ceil(a / b)] for [a >= 0] and [b >= 1]. *)
Definition ceil_div (a b : Z) : Z := (a + b - 1) / b.

Section Model.

Context {Individual Rng Resources : Type}.

(** The part of the evolutionary algorithm the scheduler reads and writes.
    The values of [get<POPULATION_SIZE>(ea)], [get<SCHEDULER_TIME_SLICE>(ea)]
    and [get<SCHEDULER_RESOURCE_SLICE>(ea)] are fields of it. *)
Record EA : Type := mkEA {
  population : list Individual;
  rng : Rng;
  resources : Resources;
  POPULATION_SIZE : Z;            (* unsigned int meta-data *)
  SCHEDULER_TIME_SLICE : Z;       (* unsigned int meta-data *)
  SCHEDULER_RESOURCE_SLICE : Z    (* unsigned int meta-data *)
}.

(** [p->alive()]. *)
Variable alive : Individual -> bool.
(** [_acc] applied to the individual and [ea], the priority accessor: a [double]. *)
Variable acc : Individual -> EA -> double.
(** [p->execute(n, p, ea)] for the individual at index [i]: opaque, it may
    kill, replace or append individuals. *)
Variable execute : Z -> nat -> EA -> EA.
(** [ea.resources().update(delta_t)]. *)
Variable resources_update : double -> Resources -> Resources.
(** [std::random_shuffle(population.begin(), population.end(), ea.rng())]. *)
Variable random_shuffle : list Individual -> Rng -> list Individual * Rng.

Definition set_population (l : list Individual) (ea : EA) : EA :=
  mkEA l (rng ea) (resources ea)
       (POPULATION_SIZE ea) (SCHEDULER_TIME_SLICE ea) (SCHEDULER_RESOURCE_SLICE ea).

Definition update_resources (dt : double) (ea : EA) : EA :=
  mkEA (population ea) (rng ea) (resources_update dt (resources ea))
       (POPULATION_SIZE ea) (SCHEDULER_TIME_SLICE ea) (SCHEDULER_RESOURCE_SLICE ea).

Definition shuffle (ea : EA) : EA :=
  let '(l, g) := random_shuffle (population ea) (rng ea) in
  mkEA l g (resources ea)
       (POPULATION_SIZE ea) (SCHEDULER_TIME_SLICE ea) (SCHEDULER_RESOURCE_SLICE ea).

(** The constants computed before the loop. *)
Record slice : Type := mkSlice {
  budget : Z;
  delta_t : double;
  ncycles_per_period : Z;
  N_start : nat                   (* N = population.size() *)
}.

Definition eff_population_size (ea : EA) : Z :=
  Z.min (u32 (Z.of_nat (length (population ea)))) (POPULATION_SIZE ea).

Definition budget_of (ea : EA) : Z :=
  u32 (SCHEDULER_TIME_SLICE ea * eff_population_size ea).

Definition delta_t_of (ea : EA) : double :=
  ddiv (of_Z 1) (of_Z (SCHEDULER_RESOURCE_SLICE ea)).

Definition ncycles_of (ea : EA) : option Z :=
  double_to_long (dmul (of_Z (budget_of ea)) (delta_t_of ea)).

(** The local variables of the loop, with the calls made so far. *)
Record loop_state : Type := mkLoop {
  cur : EA;
  consumed : Z;
  last_period : Z;
  idx : nat;
  deadcount : nat;
  log : list event
}.

Definition init (ea : EA) : loop_state := mkLoop ea 0 (-1) 0 0 [].

(** [(consumed < budget) && (deadcount < N)] *)
Definition loop_cond (s : slice) (st : loop_state) : bool :=
  (consumed st <? budget s) && (deadcount st <? N_start s)%nat.

(** Lines 88-92: the partial resource update at the start of a period. *)
Definition begin_period (s : slice) (st : loop_state) : outcome loop_state :=
  if ncycles_per_period s =? 0 then DivideByZero
  else
    let period := to_int (Z.quot (consumed st) (ncycles_per_period s)) in
    if period =? last_period st then Done st
    else Done (mkLoop (update_resources (delta_t s) (cur st)) (consumed st)
                      period (idx st) (deadcount st)
                      (Update period (delta_t s) :: log st)).

(** Lines 94-101: the individual at the current index runs or is counted dead. *)
Definition visit (st : loop_state) : outcome loop_state :=
  match population (cur st) !! idx st with
  | None => OutOfBounds
  | Some p =>
      if alive p then
        match double_to_size_t (acc p (cur st)) with
        | None => BadConversion
        | Some n =>
            Done (mkLoop (execute n (idx st) (cur st))
                         (to_long (consumed st + n))
                         (last_period st) (idx st) (deadcount st)
                         (Executed (idx st) n :: log st))
        end
      else
        Done (mkLoop (cur st) (consumed st) (last_period st) (idx st)
                     (S (deadcount st)) (log st))
  end.

(** Line 105: [i = (i+1) % N]. *)
Definition advance (s : slice) (st : loop_state) : loop_state :=
  mkLoop (cur st) (consumed st) (last_period st)
         (S (idx st) mod N_start s)%nat (deadcount st) (log st).

Definition body (s : slice) (st : loop_state) : outcome loop_state :=
  do st1 <- begin_period s st;
  do st2 <- visit st1;
  Done (advance s st2).

Fixpoint loop (fuel : nat) (s : slice) (st : loop_state) : outcome loop_state :=
  if loop_cond s st then
    match fuel with
    | O => OutOfFuel
    | S fuel' => do st' <- body s st; loop fuel' s st'
    end
  else Done st.

(** Lines 108-116: the survivors, in their order in the population. *)
Definition rebuild (ea : EA) : EA :=
  set_population (filter (fun p => alive p = true) (population ea)) ea.

(** What a tick leaves behind: the evolutionary algorithm with its pruned
    population, and the loop's variables when it was left. *)
Record tick_result : Type := mkTick {
  next_ea : EA;
  at_exit : loop_state
}.

Definition slice_of (ea : EA) : outcome slice :=
  match ncycles_of ea with
  | None => BadConversion
  | Some c => Done (mkSlice (budget_of ea) (delta_t_of ea) c (length (population ea)))
  end.

(** [weighted_round_robin::operator()]. *)
Definition weighted_round_robin (fuel : nat) (ea0 : EA) : outcome tick_result :=
  let ea := shuffle ea0 in
  do s <- slice_of ea;
  do st <- loop fuel s (init ea);
  Done (mkTick (rebuild (cur st)) st).

(** [access::fixed_priority]: every individual is granted one cycle. *)
Definition fixed_priority (ind : Individual) (ea : EA) : double := of_Z 1.

(** [time_slice * min(N, max_population_size)], without wrap-around. *)
Definition spec_budget (ea : EA) : Z :=
  SCHEDULER_TIME_SLICE ea *
    Z.min (Z.of_nat (length (population ea))) (POPULATION_SIZE ea).

(** *** Predicates used in the statements *)

(** [std::random_shuffle] only reorders the population. *)
Definition shuffle_permutes : Prop :=
  forall l g, (random_shuffle l g).1 ≡ₚ l.

(** What the loop maintains about the periods it has updated: [ps] lists
    them before their conversion to [int], most recent first. *)
Definition period_inv (s : slice) (st : loop_state) (ps : list Z) : Prop :=
  0 <= consumed st /\
  Forall (fun dt => dt = delta_t s) (logged_steps (log st)) /\
  logged_periods (log st) = to_int <$> ps /\
  StronglySorted (fun a b => b < a) ps /\
  Forall (fun p => 0 <= p /\ p * ncycles_per_period s < budget s) ps /\
  last_period st = match ps with [] => -1 | p :: _ => to_int p end /\
  Forall (fun p => p * ncycles_per_period s <= consumed st) ps.

(** With quanta of at most one cycle no period is jumped over: the periods
    updated so far are [0 .. k-1], and the cycle counter has not left the
    last of them. *)
Definition exact_inv (s : slice) (st : loop_state) (ps : list Z) : Prop :=
  exists k : Z,
    0 <= k /\ ps = reverse (seqZ 0 k) /\ consumed st <= k * ncycles_per_period s.

(** The value of the cycle counter at the start of each pass the loop makes
    from [st], first pass first. *)
Fixpoint pass_starts (fuel : nat) (s : slice) (st : loop_state) : list Z :=
  if loop_cond s st then
    match fuel with
    | O => []
    | S fuel' =>
        consumed st ::
          match body s st with
          | Done st' => pass_starts fuel' s st'
          | _ => []
          end
    end
  else [].

(** *** What a pass of the loop preserves *)

Lemma bind_Done {A B : Type} (o : outcome A) (k : A -> outcome B) (b : B) :
  bind o k = Done b -> exists a, o = Done a /\ k a = Done b.
Proof. destruct o; cbn; intros H; try discriminate. eauto. Qed.

(** An invariant of the loop body holds when the loop is left, and the
    loop condition is then false. *)
Lemma loop_invariant (P : loop_state -> Prop) (s : slice) :
  (forall st st', loop_cond s st = true -> P st -> body s st = Done st' -> P st') ->
  forall fuel st st',
    P st -> loop fuel s st = Done st' -> P st' /\ loop_cond s st' = false.
Proof.
  intros Hstep fuel. induction fuel as [|fuel IH]; intros st st' HP Hrun; cbn in Hrun.
  - destruct (loop_cond s st) eqn:Hc; [discriminate|].
    inversion Hrun; subst. auto.
  - destruct (loop_cond s st) eqn:Hc.
    + apply bind_Done in Hrun as (st1 & Hb & Hrest).
      eapply IH; [|exact Hrest]. eauto.
    + inversion Hrun; subst. auto.
Qed.

(** More fuel does not change a finished run. *)
Lemma loop_fuel_mono (s : slice) (fuel : nat) :
  forall st st' extra,
    loop fuel s st = Done st' -> loop (fuel + extra) s st = Done st'.
Proof.
  induction fuel as [|fuel IH]; intros st st' extra Hrun; cbn in Hrun.
  - destruct (loop_cond s st) eqn:Hc; [discriminate|].
    destruct extra; cbn; rewrite Hc; exact Hrun.
  - cbn. destruct (loop_cond s st) eqn:Hc; [|exact Hrun].
    destruct (body s st) as [st1| | | |]; cbn in *; try discriminate.
    apply IH. exact Hrun.
Qed.

Lemma begin_period_Done (s : slice) (st st1 : loop_state) :
  begin_period s st = Done st1 ->
  ncycles_per_period s <> 0 /\
  consumed st1 = consumed st /\ idx st1 = idx st /\ deadcount st1 = deadcount st /\
  population (cur st1) = population (cur st) /\
  let period := to_int (Z.quot (consumed st) (ncycles_per_period s)) in
  last_period st1 = period /\
  ((period = last_period st /\ st1 = st) \/
   (period <> last_period st /\
    cur st1 = update_resources (delta_t s) (cur st) /\
    log st1 = Update period (delta_t s) :: log st)).
Proof.
  unfold begin_period. intros H.
  destruct (Z.eqb_spec (ncycles_per_period s) 0) as [|Hn]; [discriminate|].
  destruct (Z.eqb_spec (to_int (Z.quot (consumed st) (ncycles_per_period s)))
                       (last_period st)) as [He|He];
    inversion H; subst; cbn; intuition.
Qed.

Lemma visit_Done (st st2 : loop_state) :
  visit st = Done st2 ->
  exists p, population (cur st) !! idx st = Some p /\
    last_period st2 = last_period st /\ idx st2 = idx st /\
    ((alive p = true /\ exists n,
        double_to_size_t (acc p (cur st)) = Some n /\
        cur st2 = execute n (idx st) (cur st) /\
        consumed st2 = to_long (consumed st + n) /\
        deadcount st2 = deadcount st /\
        log st2 = Executed (idx st) n :: log st) \/
     (alive p = false /\ cur st2 = cur st /\ consumed st2 = consumed st /\
        deadcount st2 = S (deadcount st) /\ log st2 = log st)).
Proof.
  unfold visit. intros H.
  destruct (population (cur st) !! idx st) as [p|] eqn:Hp; [|discriminate].
  exists p. split; [reflexivity|].
  destruct (alive p) eqn:Ha.
  - destruct (double_to_size_t (acc p (cur st))) as [n|] eqn:Hn; [|discriminate].
    inversion H; subst; cbn. intuition eauto 10.
  - inversion H; subst; cbn. intuition.
Qed.

Lemma double_to_size_t_range (x : double) (n : Z) :
  double_to_size_t x = Some n -> 0 <= n < 2 ^ 64.
Proof.
  unfold double_to_size_t. destruct (truncate x) as [z|]; [|discriminate].
  destruct (Z.leb_spec 0 z), (Z.ltb_spec z (2 ^ 64)); cbn; intros Hx;
    inversion Hx; subst; lia.
Qed.

Lemma weighted_round_robin_Done (fuel : nat) (ea : EA) (r : tick_result) :
  weighted_round_robin fuel ea = Done r ->
  exists s, slice_of (shuffle ea) = Done s /\
    loop fuel s (init (shuffle ea)) = Done (at_exit r) /\
    next_ea r = rebuild (cur (at_exit r)).
Proof.
  unfold weighted_round_robin. intros H.
  apply bind_Done in H as (s & Hs & H).
  apply bind_Done in H as (st & Hst & H).
  inversion H; subst; cbn. eauto.
Qed.

Lemma slice_of_Done (ea : EA) (s : slice) :
  slice_of ea = Done s ->
  budget s = budget_of ea /\ delta_t s = delta_t_of ea /\
  ncycles_of ea = Some (ncycles_per_period s) /\
  N_start s = length (population ea).
Proof.
  unfold slice_of. destruct (ncycles_of ea) as [c|]; [|discriminate].
  intros H; inversion H; subst; cbn. auto.
Qed.

(** *** The population a tick leaves behind *)

(** C4: the population produced at the end of a tick is the population as it
    stands when the loop is left (offspring appended by [execute] included),
    restricted to the individuals that are alive, in the same relative order;
    no dead individual remains and no living one is lost. *)
Theorem tick_keeps_exactly_the_living (fuel : nat) (ea : EA) (r : tick_result) :
  weighted_round_robin fuel ea = Done r ->
  let before := population (cur (at_exit r)) in
  let after := population (next_ea r) in
  (exists s, slice_of (shuffle ea) = Done s /\
             loop fuel s (init (shuffle ea)) = Done (at_exit r)) /\
  after = filter (fun p => alive p = true) before /\
  Forall (fun p => alive p = true) after /\
  sublist after before /\
  (forall p, p ∈ after <-> p ∈ before /\ alive p = true).
Proof.
  intros H. apply weighted_round_robin_Done in H as (s & Hs & Hl & Hn).
  cbn. rewrite Hn. unfold rebuild, set_population; cbn.
  split; [eauto|]. split; [reflexivity|]. split; [|split].
  - apply Forall_forall. intros p Hp. apply list_elem_of_filter in Hp. tauto.
  - apply sublist_filter.
  - intros p. rewrite list_elem_of_filter. tauto.
Qed.

(** *** The cycle budget *)

Lemma budget_of_range (ea : EA) : 0 <= budget_of ea < 2 ^ 32.
Proof. apply u32_range. Qed.

Lemma shuffle_fields (ea : EA) :
  POPULATION_SIZE (shuffle ea) = POPULATION_SIZE ea /\
  SCHEDULER_TIME_SLICE (shuffle ea) = SCHEDULER_TIME_SLICE ea /\
  SCHEDULER_RESOURCE_SLICE (shuffle ea) = SCHEDULER_RESOURCE_SLICE ea /\
  population (shuffle ea) = (random_shuffle (population ea) (rng ea)).1.
Proof. unfold shuffle. destruct (random_shuffle _ _); cbn. auto. Qed.

(** The budget never exceeds [time_slice * min(N, max_population_size)]:
    the product of two [unsigned int] can only wrap downward. *)
Lemma budget_of_le (ea : EA) :
  0 <= SCHEDULER_TIME_SLICE ea -> 0 <= POPULATION_SIZE ea ->
  budget_of ea <= spec_budget ea.
Proof.
  intros Hts Hps. unfold budget_of, spec_budget, eff_population_size.
  pose proof (u32_le (Z.of_nat (length (population ea))) ltac:(lia)) as Hn.
  pose proof (u32_range (Z.of_nat (length (population ea)))) as Hr.
  etransitivity; [apply u32_le; nia|]. nia.
Qed.

(** While the loop runs and no quantum exceeds [qmax], the cycle counter
    stays below [budget + qmax]. *)
Lemma consumed_invariant (qmax : Z) (s : slice) :
  0 <= budget s < 2 ^ 32 -> 1 <= qmax <= 2 ^ 62 ->
  (forall p e n, double_to_size_t (acc p e) = Some n -> n <= qmax) ->
  forall st st',
    loop_cond s st = true ->
    0 <= consumed st <= budget s + qmax - 1 ->
    body s st = Done st' ->
    0 <= consumed st' <= budget s + qmax - 1.
Proof.
  intros Hb Hq Hacc st st' Hc Hinv Hbody.
  unfold body in Hbody.
  apply bind_Done in Hbody as (st1 & H1 & Hbody).
  apply bind_Done in Hbody as (st2 & H2 & Hbody).
  inversion Hbody; subst; cbn.
  apply begin_period_Done in H1 as (_ & Hc1 & _).
  apply visit_Done in H2 as (p & _ & _ & _ & [(_ & n & Hn & _ & Hc2 & _)|(_ & _ & Hc2 & _)]).
  - unfold loop_cond in Hc. apply andb_prop in Hc as [Hlt _].
    apply Z.ltb_lt in Hlt.
    pose proof (double_to_size_t_range _ _ Hn). pose proof (Hacc _ _ _ Hn).
    rewrite Hc2, Hc1, to_long_small; lia.
  - lia.
Qed.

Lemma shuffle_length (ea : EA) :
  shuffle_permutes -> length (population (shuffle ea)) = length (population ea).
Proof.
  intros Hperm. destruct (shuffle_fields ea) as (_ & _ & _ & ->).
  apply Permutation_length, Hperm.
Qed.

(** The cycle counter when the loop is left, for quanta of at most [qmax]. *)
Lemma consumed_at_exit_bound
    (qmax : Z) (fuel : nat) (ea : EA) (r : tick_result) :
  shuffle_permutes ->
  0 <= SCHEDULER_TIME_SLICE ea -> 0 <= POPULATION_SIZE ea ->
  1 <= qmax <= 2 ^ 62 ->
  (forall p e n, double_to_size_t (acc p e) = Some n -> n <= qmax) ->
  weighted_round_robin fuel ea = Done r ->
  0 <= consumed (at_exit r) <= spec_budget ea + qmax - 1.
Proof.
  intros Hperm Hts Hps Hq Hacc Htick.
  apply weighted_round_robin_Done in Htick as (s & Hs & Hloop & _).
  apply slice_of_Done in Hs as (Hb & _).
  pose proof (budget_of_range (shuffle ea)) as Hr. rewrite <- Hb in Hr.
  destruct (loop_invariant
              (fun st => 0 <= consumed st <= budget s + qmax - 1) s
              (consumed_invariant qmax s Hr Hq Hacc)
              fuel (init (shuffle ea)) (at_exit r)) as [Hinv _];
    [cbn; lia | exact Hloop |].
  pose proof (budget_of_le (shuffle ea)) as Hle.
  destruct (shuffle_fields ea) as (Hp & Ht & _).
  unfold spec_budget in *.
  rewrite Hp, Ht, (shuffle_length ea Hperm) in Hle.
  rewrite Hb in Hinv. lia.
Qed.

(** C2 (amended): the loop tests the budget before it grants a quantum and
    never clamps the quantum, so a tick that grants quanta of at most [qmax]
    consumes at most [time_slice * min(N, max_population_size) + qmax - 1]
    cycles; the bound [time_slice * min(N, max_population_size)] itself holds
    when no quantum exceeds one cycle. *)
Theorem cycles_within_budget_plus_quantum
    (qmax : Z) (fuel : nat) (ea : EA) (r : tick_result) :
  shuffle_permutes ->
  0 <= SCHEDULER_TIME_SLICE ea -> 0 <= POPULATION_SIZE ea ->
  1 <= qmax <= 2 ^ 62 ->
  (forall p e n, double_to_size_t (acc p e) = Some n -> n <= qmax) ->
  weighted_round_robin fuel ea = Done r ->
  0 <= consumed (at_exit r) <= spec_budget ea + qmax - 1 /\
  (qmax = 1 -> consumed (at_exit r) <= spec_budget ea).
Proof.
  intros Hperm Hts Hps Hq Hacc Htick.
  pose proof (consumed_at_exit_bound qmax fuel ea r Hperm Hts Hps Hq Hacc Htick).
  split; [assumption|]. intros ->. lia.
Qed.

(** *** A population that is dead when the tick starts *)

(** Once the first pass has set [last_period], a dead population only feeds
    [deadcount]: the loop is left after one visit per missing count. *)
Lemma all_dead_rest (s : slice) (k : nat) :
  ncycles_per_period s <> 0 -> 0 < budget s ->
  forall st,
    Forall (fun p => alive p = false) (population (cur st)) ->
    length (population (cur st)) = N_start s ->
    consumed st = 0 -> last_period st = 0 ->
    (idx st < N_start s)%nat ->
    (deadcount st + k = N_start s)%nat ->
    exists j, loop k s st = Done (mkLoop (cur st) 0 0 j (N_start s) (log st)).
Proof.
  intros Hpl Hb. induction k as [|k IH]; intros st Hdead Hlen Hc Hlp Hi Hd.
  - exists (idx st). cbn. unfold loop_cond.
    replace (deadcount st <? N_start s)%nat with false
      by (symmetry; apply Nat.ltb_ge; lia).
    rewrite andb_false_r. destruct st; cbn in *. subst. f_equal. f_equal. lia.
  - cbn. unfold loop_cond.
    replace (consumed st <? budget s) with true
      by (symmetry; apply Z.ltb_lt; lia).
    replace (deadcount st <? N_start s)%nat with true
      by (symmetry; apply Nat.ltb_lt; lia).
    cbn. unfold body, begin_period.
    destruct (Z.eqb_spec (ncycles_per_period s) 0) as [|_]; [contradiction|].
    rewrite Hc, Z.quot_0_l, Hlp, to_int_0 by assumption. cbn.
    unfold visit.
    destruct (lookup_lt_is_Some_2 (population (cur st)) (idx st)) as [p Hp];
      [lia|].
    rewrite Hp.
    rewrite (proj1 (Forall_forall _ _) Hdead p) by (eapply list_elem_of_lookup_2; eauto).
    cbn.
    edestruct (IH (advance s (mkLoop (cur st) (consumed st) (last_period st)
                                     (idx st) (S (deadcount st)) (log st))))
      as [j Hj]; cbn; try eassumption; try lia.
    + apply Nat.mod_upper_bound. lia.
    + exists j. exact Hj.
Qed.

(** The whole loop on a dead, non-empty population: one resource update on
    the first pass, for period 0, then [N] visits that execute nothing. *)
Lemma all_dead_loop (s : slice) (ea : EA) (fuel : nat) :
  ncycles_per_period s <> 0 -> 0 < budget s ->
  Forall (fun p => alive p = false) (population ea) ->
  length (population ea) = N_start s -> (0 < N_start s)%nat ->
  (N_start s <= fuel)%nat ->
  exists j,
    loop fuel s (init ea) =
    Done (mkLoop (update_resources (delta_t s) ea) 0 0 j (N_start s)
                 [Update 0 (delta_t s)]).
Proof.
  intros Hpl Hb Hdead Hlen HN Hfuel.
  destruct (N_start s) as [|k] eqn:HNk; [lia|].
  edestruct (all_dead_rest s k Hpl Hb
               (mkLoop (update_resources (delta_t s) ea) 0 0
                       (1 mod N_start s)%nat 1 [Update 0 (delta_t s)]))
    as [j Hj]; cbn; try reflexivity; try (rewrite ?HNk; lia); try assumption.
  - rewrite HNk. apply Nat.mod_upper_bound. lia.
  - exists j. replace fuel with (S k + (fuel - S k))%nat by lia.
    apply loop_fuel_mono. cbn. unfold loop_cond. cbn.
    replace (0 <? budget s) with true by (symmetry; apply Z.ltb_lt; lia).
    rewrite HNk. cbn. unfold body, begin_period. cbn.
    destruct (Z.eqb_spec (ncycles_per_period s) 0) as [|_]; [contradiction|].
    rewrite Z.quot_0_l, to_int_0 by assumption. cbn.
    unfold visit. cbn.
    destruct (lookup_lt_is_Some_2 (population ea) 0%nat) as [p Hp]; [lia|].
    rewrite Hp.
    rewrite (proj1 (Forall_forall _ _) Hdead p) by (eapply list_elem_of_lookup_2; eauto).
    cbn. unfold advance; cbn. rewrite HNk in Hj. rewrite HNk. exact Hj.
Qed.

(** A tick on a dead, non-empty population with a period of non-zero length. *)
Lemma all_dead_tick (fuel : nat) (ea : EA) (pl : Z) :
  shuffle_permutes ->
  population ea <> [] ->
  Forall (fun p => alive p = false) (population ea) ->
  ncycles_of (shuffle ea) = Some pl -> pl <> 0 ->
  (length (population ea) <= fuel)%nat ->
  0 < budget_of (shuffle ea) /\
  exists r j,
    weighted_round_robin fuel ea = Done r /\
    at_exit r =
      mkLoop (update_resources (delta_t_of (shuffle ea)) (shuffle ea)) 0 0 j
             (length (population ea))
             [Update 0 (delta_t_of (shuffle ea))].
Proof.
  intros Hperm Hne Hdead Hpl Hnz Hfuel.
  assert (Hb : 0 < budget_of (shuffle ea)).
  { pose proof (budget_of_range (shuffle ea)) as Hr.
    destruct (Z.eq_dec (budget_of (shuffle ea)) 0) as [E|]; [|lia].
    unfold ncycles_of in Hpl. rewrite E in Hpl.
    apply zero_budget_period in Hpl. contradiction. }
  split; [exact Hb|].
  pose proof (shuffle_length ea Hperm) as Hlen.
  assert (Hdead' : Forall (fun p => alive p = false) (population (shuffle ea))).
  { destruct (shuffle_fields ea) as (_ & _ & _ & ->).
    rewrite (Hperm (population ea) (rng ea)). exact Hdead. }
  set (s := mkSlice (budget_of (shuffle ea)) (delta_t_of (shuffle ea)) pl
                    (length (population (shuffle ea)))).
  destruct (all_dead_loop s (shuffle ea) fuel) as [j Hj]; cbn;
    try assumption; try reflexivity.
  - rewrite Hlen. destruct (population ea); [contradiction|cbn; lia].
  - lia.
  - unfold weighted_round_robin, slice_of. rewrite Hpl. cbn. fold s. rewrite Hj. cbn.
    eexists _, j. split; [reflexivity|]. cbn. rewrite Hlen. reflexivity.
Qed.


(** C10: in the same situation the resource pool is still updated, exactly
    once, on the first pass of the loop, for period 0 and with [delta_t]. *)
Theorem all_dead_tick_updates_resources_once (fuel : nat) (ea : EA) (pl : Z) :
  shuffle_permutes ->
  population ea <> [] ->
  Forall (fun p => alive p = false) (population ea) ->
  ncycles_of (shuffle ea) = Some pl -> pl <> 0 ->
  (length (population ea) <= fuel)%nat ->
  exists r,
    weighted_round_robin fuel ea = Done r /\
    log (at_exit r) = [Update 0 (delta_t_of (shuffle ea))] /\
    update_periods (log (at_exit r)) = [0] /\
    update_steps (log (at_exit r)) = [delta_t_of (shuffle ea)] /\
    executions (log (at_exit r)) = [] /\
    consumed (at_exit r) = 0 /\
    resources (next_ea r) =
      resources_update (delta_t_of (shuffle ea)) (resources ea).
Proof.
  intros Hperm Hne Hdead Hpl Hnz Hfuel.
  destruct (all_dead_tick fuel ea pl Hperm Hne Hdead Hpl Hnz Hfuel)
    as (Hb & r & j & Ht & Hexit).
  exists r. rewrite Hexit. cbn. repeat split; try reflexivity; try assumption.
  apply weighted_round_robin_Done in Ht as (_ & _ & _ & ->). rewrite Hexit. cbn.
  unfold shuffle. destruct (random_shuffle _ _). reflexivity.
Qed.

(** *** Resource periods *)

Lemma period_inv_init (s : slice) (ea : EA) : period_inv s (init ea) [].
Proof.
  unfold period_inv; cbn. repeat split; try constructor; lia.
Qed.

(** One pass of the loop: either the period of the previous pass is still
    running, or the new period is logged in front of the others. *)
Lemma period_inv_step (qmax : Z) (s : slice) :
  1 <= ncycles_per_period s -> budget s < 2 ^ 32 -> qmax <= 2 ^ 62 ->
  (forall p e n, double_to_size_t (acc p e) = Some n -> n <= qmax) ->
  forall st st' ps,
    loop_cond s st = true -> period_inv s st ps -> body s st = Done st' ->
    let raw := consumed st / ncycles_per_period s in
    consumed st <= consumed st' <= consumed st + Z.max 0 qmax /\
    ((period_inv s st' ps /\ to_int raw = last_period st) \/
     (period_inv s st' (raw :: ps) /\ Forall (fun p => p < raw) ps)).
Proof.
  intros Hpl Hb Hq Hacc st st' ps Hc (H0 & Hdt & Hlog & Hsort & Hrange & Hlast & Hle) Hbody raw.
  unfold loop_cond in Hc. apply andb_prop in Hc as [Hlt _]. apply Z.ltb_lt in Hlt.
  unfold body in Hbody.
  apply bind_Done in Hbody as (st1 & H1 & Hbody).
  apply bind_Done in Hbody as (st2 & H2 & Hbody).
  inversion Hbody; subst st'; clear Hbody. cbn.
  apply begin_period_Done in H1 as (_ & Hc1 & _ & _ & _ & Hlp1 & Hupd).
  cbn in Hlp1, Hupd.
  rewrite Z.quot_div_nonneg in Hlp1, Hupd by lia. fold raw in Hlp1, Hupd.
  assert (Hraw : 0 <= raw /\ raw * ncycles_per_period s <= consumed st).
  { unfold raw. split; [apply Z.div_pos; lia|].
    rewrite Z.mul_comm. apply Z.mul_div_le. lia. }
  apply visit_Done in H2 as (p & _ & Hlp2 & _ & Hv).
  assert (Hgrow : consumed st <= consumed st2 <= consumed st + Z.max 0 qmax /\
                  logged_periods (log st2) = logged_periods (log st1) /\
                  logged_steps (log st2) = logged_steps (log st1)).
  { destruct Hv as [(_ & n & Hn & _ & Hc2 & _ & Hl2)|(_ & _ & Hc2 & _ & Hl2)].
    - pose proof (double_to_size_t_range _ _ Hn). pose proof (Hacc _ _ _ Hn).
      rewrite Hc2, Hc1, to_long_small, Hl2 by lia. cbn. split; [lia|auto].
    - rewrite Hc2, Hc1, Hl2. split; [lia|auto]. }
  destruct Hgrow as (Hgrow & Hlp & Hls).
  split; [exact Hgrow|].
  destruct Hupd as [(Heq & ->)|(Hne & _ & Hl1)].
  - left. split; [|exact Heq].
    unfold period_inv; cbn [advance consumed log last_period].
    rewrite Hlp, Hls, Hlp2. repeat split; try assumption; try lia.
    eapply Forall_impl; [exact Hle|]. cbn. intros; lia.
  - right.
    assert (Hbelow : Forall (fun p => p < raw) ps).
    { destruct Hsort as [|q t Hs Hall]; [constructor|].
      apply Forall_cons in Hrange as [Hq0 _]. apply Forall_cons in Hle as [Hq1 _].
      assert (Hqr : q <= raw).
      { unfold raw. apply Z.div_le_lower_bound; lia. }
      assert (q <> raw) by (intros ->; congruence).
      constructor; [lia|]. eapply Forall_impl; [exact Hall|]. cbn. intros; lia. }
    split; [|exact Hbelow].
    unfold period_inv; cbn [advance consumed log last_period].
    rewrite Hlp, Hls, Hlp2, Hlp1, Hl1.
    cbn [logged_periods logged_steps omap list_omap].
    unfold logged_periods in Hlog. unfold logged_steps in Hdt. rewrite Hlog.
    repeat split; try lia.
    + constructor; [reflexivity|exact Hdt].
    + constructor; assumption.
    + constructor; [lia|exact Hrange].
    + constructor; [lia|]. eapply Forall_impl; [exact Hle|]. cbn. intros; lia.
Qed.

(** The periods updated from a state on are those in which a pass starts. *)
Lemma updated_periods_are_started (qmax : Z) (s : slice) :
  1 <= ncycles_per_period s -> budget s < 2 ^ 32 -> qmax <= 2 ^ 62 ->
  (forall p e n, double_to_size_t (acc p e) = Some n -> n <= qmax) ->
  forall fuel st st' ps,
    period_inv s st ps -> loop fuel s st = Done st' ->
    forall p,
      p ∈ logged_periods (log st') <->
      p ∈ logged_periods (log st) \/
      exists c, c ∈ pass_starts fuel s st /\ p = to_int (c / ncycles_per_period s).
Proof.
  intros Hpl Hb Hq Hacc fuel.
  induction fuel as [|fuel IH]; intros st st' ps Hinv Hrun p;
    cbn [loop pass_starts] in *;
    destruct (loop_cond s st) eqn:Hc; try discriminate;
    try (injection Hrun as <-; split; [auto|];
         intros [H|(c & Hin & _)]; [exact H|inversion Hin]).
  apply bind_Done in Hrun as (st1 & Hbody & Hrun). rewrite Hbody.
  destruct (period_inv_step qmax s Hpl Hb Hq Hacc st st1 ps Hc Hinv Hbody)
    as (_ & Hcase).
  pose proof Hinv as (H0 & _ & Hlog & _ & _ & Hlast & _).
  pose proof Hc as Hlt. unfold loop_cond in Hlt.
  apply andb_prop in Hlt as [Hlt _]. apply Z.ltb_lt in Hlt.
  set (raw := consumed st / ncycles_per_period s) in *.
  assert (Hraw : 0 <= raw < 2 ^ 32 - 1).
  { assert (0 <= raw) by (apply Z.div_pos; lia).
    assert (raw * ncycles_per_period s <= consumed st)
      by (rewrite Z.mul_comm; apply Z.mul_div_le; lia).
    nia. }
  destruct Hcase as [(Hinv1 & Heq)|(Hinv1 & _)].
  - rewrite (IH st1 st' ps Hinv1 Hrun p).
    pose proof Hinv1 as (_ & _ & Hlog1 & _). rewrite Hlog1, Hlog.
    split; intros [H|(c & Hin & Hp)]; auto.
    + right. exists c. split; [right; exact Hin|exact Hp].
    + apply elem_of_cons in Hin as [->|Hin]; [|right; eauto].
      left. fold raw in Hp. subst p. rewrite Heq, Hlast.
      destruct ps as [|p0 ps'].
      * exfalso. apply (to_int_not_minus_one raw Hraw). congruence.
      * left.
  - rewrite (IH st1 st' (raw :: ps) Hinv1 Hrun p).
    pose proof Hinv1 as (_ & _ & Hlog1 & _). rewrite Hlog1, Hlog.
    cbn [fmap list_fmap]. rewrite elem_of_cons.
    split; intros H.
    + destruct H as [[->|H]|(c & Hin & Hp)]; auto.
      * right. exists (consumed st). split; [left|reflexivity].
      * right. exists c. split; [right; exact Hin|exact Hp].
    + destruct H as [H|(c & Hin & Hp)]; auto.
      apply elem_of_cons in Hin as [->|Hin]; [auto|right; eauto].
Qed.

Lemma reverse_seqZ_succ (k : Z) :
  0 <= k -> reverse (seqZ 0 (k + 1)) = k :: reverse (seqZ 0 k).
Proof.
  intros Hk. rewrite seqZ_app by lia.
  rewrite (seqZ_cons (0 + k) 1) by lia.
  rewrite (seqZ_nil _ (Z.pred 1)) by (cbn; lia).
  rewrite reverse_snoc. f_equal.
Qed.

Lemma exact_inv_step (s : slice) :
  1 <= ncycles_per_period s -> budget s < 2 ^ 32 ->
  (forall p e n, double_to_size_t (acc p e) = Some n -> n <= 1) ->
  forall st st' ps,
    loop_cond s st = true -> period_inv s st ps -> exact_inv s st ps ->
    body s st = Done st' ->
    exists ps', period_inv s st' ps' /\ exact_inv s st' ps'.
Proof.
  intros Hpl Hb Hacc st st' ps Hc Hinv (k & Hk & Hps & Hck) Hbody.
  destruct (period_inv_step 1 s Hpl Hb ltac:(lia) Hacc st st' ps Hc Hinv Hbody)
    as (Hgrow & Hcase).
  replace (Z.max 0 1) with 1 in Hgrow by reflexivity.
  destruct Hinv as (H0 & _ & _ & _ & Hrange & Hlast & _).
  unfold loop_cond in Hc. apply andb_prop in Hc as [Hlt _]. apply Z.ltb_lt in Hlt.
  set (pl := ncycles_per_period s) in *.
  set (raw := consumed st / pl) in *.
  assert (Hraw : 0 <= raw /\ raw * pl <= consumed st /\ consumed st < (raw + 1) * pl).
  { unfold raw. split; [apply Z.div_pos; lia|]. split.
    - rewrite Z.mul_comm. apply Z.mul_div_le. lia.
    - pose proof (Z.mul_succ_div_gt (consumed st) pl ltac:(lia)). lia. }
  destruct Hcase as [(Hinv' & Heq)|(Hinv' & Hbelow)].
  - exists ps. split; [exact Hinv'|]. exists k. split; [exact Hk|]. split; [exact Hps|].
    destruct (Z.eq_dec k 0) as [->|Hk0].
    + cbn in Hps. subst ps. rewrite Hlast in Heq.
      exfalso. apply (to_int_not_minus_one raw); [nia|exact Heq].
    + replace k with ((k - 1) + 1) in Hps by lia.
      rewrite reverse_seqZ_succ in Hps by lia. subst ps.
      apply Forall_cons in Hrange as [Hr _]. rewrite Hlast in Heq.
      apply to_int_inj in Heq; [nia|nia|nia].
  - exists (raw :: ps). split; [exact Hinv'|].
    exists (k + 1). split; [lia|].
    assert (raw = k) as ->.
    { destruct (Z.eq_dec k 0) as [->|Hk0].
      - assert (consumed st = 0) as E by lia. unfold raw. rewrite E.
        apply Z.div_0_l. lia.
      - replace k with ((k - 1) + 1) in Hps by lia.
        rewrite reverse_seqZ_succ in Hps by lia. subst ps.
        apply Forall_cons in Hbelow as [Hlo _].
        assert (raw <= k); [|lia].
        unfold raw. apply Z.div_le_upper_bound; lia. }
    split; [|nia]. rewrite reverse_seqZ_succ by lia. congruence.
Qed.

Lemma strictly_descending_NoDup (ps : list Z) :
  StronglySorted (fun a b => b < a) ps -> NoDup ps.
Proof.
  induction 1 as [|p t _ IH Hall]; constructor; [|exact IH].
  intros Hin. rewrite Forall_forall in Hall. specialize (Hall p Hin). lia.
Qed.

Lemma strictly_descending_length (ps : list Z) :
  StronglySorted (fun a b => b < a) ps -> Forall (fun p => 0 <= p) ps ->
  match ps with [] => True | p :: _ => Z.of_nat (length ps) <= p + 1 end.
Proof.
  induction 1 as [|p t Hs IH Hall]; [trivial|]. intros Hpos.
  apply Forall_cons in Hpos as [Hp Hpos]. specialize (IH Hpos).
  destruct t as [|q t']; cbn [length]; [lia|].
  apply Forall_cons in Hall as [Hq _]. cbn [length] in IH. lia.
Qed.

(** C3 (amended): in a tick that completes, whose resource period has length
    [pl >= 1] and in which no quantum exceeds [qmax <= 2^62] cycles (the
    cycle counter, a [long], then never wraps), the resource pool is updated
    with [delta_t = 1/resource_slice] each time, never twice for the same
    period, exactly for the periods in which a pass of the loop starts, and
    at most [ceil(budget / pl)] times. When every quantum is at most one
    cycle and the tick ends because the budget is used up, the updates are
    exactly those of the periods [0 .. ceil(budget / pl) - 1], one each. *)
Theorem resource_updates_per_period
    (qmax : Z) (fuel : nat) (ea : EA) (pl : Z) (r : tick_result) :
  qmax <= 2 ^ 62 ->
  (forall p e n, double_to_size_t (acc p e) = Some n -> n <= qmax) ->
  ncycles_of (shuffle ea) = Some pl -> 1 <= pl ->
  weighted_round_robin fuel ea = Done r ->
  let b := budget_of (shuffle ea) in
  let updates := update_periods (log (at_exit r)) in
  let s := mkSlice b (delta_t_of (shuffle ea)) pl (length (population (shuffle ea))) in
  Forall (fun dt => dt = delta_t_of (shuffle ea))
         (update_steps (log (at_exit r))) /\
  NoDup updates /\
  (forall p, p ∈ updates <->
             exists c, c ∈ pass_starts fuel s (init (shuffle ea)) /\
                       p = to_int (c / pl)) /\
  Z.of_nat (length updates) <= ceil_div b pl /\
  (qmax <= 1 -> b <= consumed (at_exit r) ->
   updates = to_int <$> seqZ 0 (ceil_div b pl)).
Proof.
  intros Hq Hacc Hpl Hpl1 Htick b updates s0.
  apply weighted_round_robin_Done in Htick as (s & Hs & Hloop & _).
  pose proof Hs as Hs0. unfold slice_of in Hs0. rewrite Hpl in Hs0.
  injection Hs0 as Hs0. fold b in Hs0. fold s0 in Hs0.
  apply slice_of_Done in Hs as (Hb & Hdt & Hn & _).
  rewrite Hpl in Hn. injection Hn as Hn.
  pose proof (budget_of_range (shuffle ea)) as Hr. fold b in Hr, Hb.
  assert (Hpl' : 1 <= ncycles_per_period s) by lia.
  assert (Hb' : budget s < 2 ^ 32) by lia.
  destruct (loop_invariant
              (fun st => exists ps, period_inv s st ps /\
                                    (qmax <= 1 -> exact_inv s st ps)) s)
    with (fuel := fuel) (st := init (shuffle ea)) (st' := at_exit r)
    as [(ps & Hinv & Hexact) Hcond].
  - intros st st' Hc (ps & Hinv & Hexact) Hbody.
    destruct (Z_le_gt_dec qmax 1) as [Hq1|Hq1].
    + destruct (exact_inv_step s Hpl' Hb') with (st := st) (st' := st') (ps := ps)
        as (ps' & Hi' & He'); auto.
      { intros p e n Hn'. specialize (Hacc p e n Hn'). lia. }
      exists ps'. auto.
    + destruct (period_inv_step qmax s Hpl' Hb' Hq Hacc st st' ps Hc Hinv Hbody)
        as (_ & [(Hi' & _)|(Hi' & _)]); eexists; (split; [exact Hi'|lia]).
  - exists []. split; [apply period_inv_init|]. intros _.
    exists 0. cbn. repeat split; lia.
  - exact Hloop.
  - destruct Hinv as (H0 & Hsteps & Hlog & Hsort & Hrange & Hlast & Hle).
    assert (Hupd : updates = reverse (to_int <$> ps)).
    { unfold updates, update_periods. rewrite Hlog. reflexivity. }
    rewrite Hb, <- Hn in Hrange.
    assert (Hlen : Z.of_nat (length ps) <= ceil_div b pl).
    { unfold ceil_div.
      pose proof (strictly_descending_length ps Hsort) as Hl.
      destruct ps as [|p t].
      - cbn. apply Z.div_pos; lia.
      - specialize (Hl ltac:(eapply Forall_impl; [exact Hrange|cbn; intros; lia])).
        apply Forall_cons in Hrange as [Hp _].
        replace (b + pl - 1) with (b - 1 + 1 * pl) by lia.
        rewrite Z.div_add by lia.
        assert (p <= (b - 1) / pl) by (apply Z.div_le_lower_bound; lia). lia. }
    split; [|split; [|split; [|split]]].
    + unfold update_steps. apply Forall_reverse. rewrite <- Hdt. exact Hsteps.
    + rewrite Hupd, reverse_Permutation. apply NoDup_fmap_2_strong.
      * intros x y Hx Hy Hxy. rewrite Forall_forall in Hrange.
        pose proof (Hrange x Hx). pose proof (Hrange y Hy).
        apply to_int_inj; [nia|nia|exact Hxy].
      * apply strictly_descending_NoDup, Hsort.
    + intros p. unfold updates, update_periods. rewrite elem_of_reverse.
      rewrite (updated_periods_are_started qmax s Hpl' Hb' Hq Hacc fuel
                 (init (shuffle ea)) (at_exit r) [] (period_inv_init s (shuffle ea))
                 Hloop p).
      rewrite <- Hn, Hs0. cbn [init log logged_periods omap list_omap].
      split; [intros [H|H]; [inversion H|exact H]|auto].
    + rewrite Hupd, length_reverse, length_fmap. exact Hlen.
    + intros Hq1 Hdone. destruct (Hexact Hq1) as (k & Hk & Hps & Hck).
      rewrite Hupd, Hps, fmap_reverse, reverse_involutive. do 2 f_equal.
      rewrite Hps, length_reverse, length_seqZ in Hlen.
      rewrite <- Hn in Hck.
      assert (ceil_div b pl < k + 1); [|lia].
      unfold ceil_div. apply Z.div_lt_upper_bound; nia.
Qed.

(** *** Termination *)

(** The loop is left within [budget + N] passes when every living individual
    is granted at least one cycle and [execute] never shrinks the population
    (offspring are only appended). *)
Lemma loop_terminates (s : slice) :
  ncycles_per_period s <> 0 -> 0 <= budget s < 2 ^ 32 ->
  (forall p e, alive p = true ->
     exists n, double_to_size_t (acc p e) = Some n /\ 1 <= n <= 2 ^ 62) ->
  (forall n i e, (length (population e) <= length (population (execute n i e)))%nat) ->
  forall fuel st,
    0 <= consumed st ->
    (N_start s <= length (population (cur st)))%nat ->
    (idx st < N_start s)%nat ->
    (Z.to_nat (budget s - consumed st) + (N_start s - deadcount st) <= fuel)%nat ->
    exists st', loop fuel s st = Done st'.
Proof.
  intros Hpl Hb Hacc Hgrow fuel.
  induction fuel as [|fuel IH]; intros st H0 Hlen Hi Hfuel.
  - exists st. cbn. unfold loop_cond.
    destruct (Z.ltb_spec (consumed st) (budget s)); [lia|]. reflexivity.
  - cbn. destruct (loop_cond s st) eqn:Hc; [|eauto].
    unfold loop_cond in Hc. apply andb_prop in Hc as [Hlt Hd].
    apply Z.ltb_lt in Hlt. apply Nat.ltb_lt in Hd.
    unfold body.
    destruct (begin_period s st) as [st1| | | |] eqn:H1;
      try (unfold begin_period in H1;
           destruct (Z.eqb_spec (ncycles_per_period s) 0); [contradiction|];
           destruct (_ =? last_period st); discriminate).
    apply begin_period_Done in H1 as (_ & Hc1 & Hi1 & Hd1 & Hp1 & _).
    cbn [bind]. unfold visit. rewrite Hp1, Hi1.
    destruct (lookup_lt_is_Some_2 (population (cur st)) (idx st)) as [p Hp]; [lia|].
    rewrite Hp. destruct (alive p) eqn:Ha.
    + destruct (Hacc p (cur st1) Ha) as (n & Hn & Hn1). rewrite Hn. cbn [bind].
      apply IH; cbn.
      * rewrite Hc1, to_long_small; lia.
      * etransitivity; [|apply Hgrow]. rewrite Hp1. exact Hlen.
      * apply Nat.mod_upper_bound. lia.
      * rewrite Hc1, Hd1, to_long_small; lia.
    + cbn [bind]. apply IH; cbn.
      * lia.
      * rewrite Hp1. exact Hlen.
      * apply Nat.mod_upper_bound. lia.
      * rewrite Hc1, Hd1. lia.
Qed.

(** The tick returns when the period has a non-zero length, every living
    individual is granted at least one cycle, and [execute] never shrinks the
    population. *)
Lemma weighted_round_robin_returns (ea : EA) (pl : Z) (fuel : nat) :
  shuffle_permutes ->
  (forall n i e, (length (population e) <= length (population (execute n i e)))%nat) ->
  (forall p e, alive p = true ->
     exists n, double_to_size_t (acc p e) = Some n /\ 1 <= n <= 2 ^ 62) ->
  ncycles_of (shuffle ea) = Some pl -> pl <> 0 ->
  (Z.to_nat (budget_of (shuffle ea)) + length (population ea) <= fuel)%nat ->
  exists r, weighted_round_robin fuel ea = Done r.
Proof.
  intros Hperm Hgrow Hacc Hpl Hnz Hfuel.
  set (s := mkSlice (budget_of (shuffle ea)) (delta_t_of (shuffle ea)) pl
                    (length (population (shuffle ea)))).
  pose proof (shuffle_length ea Hperm) as Hlen.
  assert (Hrun : exists st, loop fuel s (init (shuffle ea)) = Done st).
  { destruct (Nat.eq_dec (length (population (shuffle ea))) 0%nat) as [Hz|Hz].
    - exists (init (shuffle ea)). destruct fuel; cbn; unfold loop_cond; cbn;
        rewrite Hz, andb_false_r; reflexivity.
    - apply loop_terminates; cbn; try lia; try assumption.
      apply budget_of_range. }
  destruct Hrun as [st Hst].
  exists (mkTick (rebuild (cur st)) st).
  unfold weighted_round_robin, slice_of. rewrite Hpl. cbn. fold s.
  rewrite Hst. reflexivity.
Qed.

(** *** Further properties of the loop *)

Lemma begin_period_total (s : slice) (st : loop_state) :
  ncycles_per_period s <> 0 -> exists st1, begin_period s st = Done st1.
Proof.
  intros Hpl. unfold begin_period.
  destruct (Z.eqb_spec (ncycles_per_period s) 0); [contradiction|].
  destruct (_ =? last_period st); eauto.
Qed.

Lemma body_Done (s : slice) (st st' : loop_state) :
  body s st = Done st' ->
  exists st1 st2,
    begin_period s st = Done st1 /\ visit st1 = Done st2 /\ st' = advance s st2.
Proof.
  unfold body. intros H.
  apply bind_Done in H as (st1 & H1 & H).
  apply bind_Done in H as (st2 & H2 & H).
  injection H as <-. eauto.
Qed.

(** The index stays below [N], and so does every index executed. *)
Lemma index_invariant (s : slice) (st st' : loop_state) :
  loop_cond s st = true ->
  ((N_start s = 0 \/ idx st < N_start s)%nat /\
   Forall (fun x => (x.1 < N_start s)%nat) (logged_executions (log st))) ->
  body s st = Done st' ->
  ((N_start s = 0 \/ idx st' < N_start s)%nat /\
   Forall (fun x => (x.1 < N_start s)%nat) (logged_executions (log st'))).
Proof.
  intros Hc [Hi Hlog] Hbody.
  unfold loop_cond in Hc. apply andb_prop in Hc as [_ Hd]. apply Nat.ltb_lt in Hd.
  destruct Hi as [Hi|Hi]; [lia|].
  apply body_Done in Hbody as (st1 & st2 & H1 & H2 & ->).
  apply begin_period_Done in H1 as (_ & _ & Hi1 & _ & _ & _ & Hupd).
  apply visit_Done in H2 as (p & _ & _ & Hi2 & Hv).
  split.
  - right. cbn. apply Nat.mod_upper_bound. lia.
  - cbn [advance log].
    assert (Hlog1 : Forall (fun x => (x.1 < N_start s)%nat) (logged_executions (log st1))).
    { cbn in Hupd. destruct Hupd as [(_ & ->)|(_ & _ & ->)]; exact Hlog. }
    destruct Hv as [(_ & n & _ & _ & _ & _ & ->)|(_ & _ & _ & _ & ->)]; [|exact Hlog1].
    cbn. constructor; [cbn; lia|exact Hlog1].
Qed.

(** X1: only the individuals in the population when the tick starts are
    executed: every index executed is below the size [N] the population had
    then, whatever [execute] appends. *)
Theorem offspring_not_executed (fuel : nat) (ea : EA) (r : tick_result) :
  shuffle_permutes ->
  weighted_round_robin fuel ea = Done r ->
  Forall (fun x => (x.1 < length (population ea))%nat)
         (executions (log (at_exit r))).
Proof.
  intros Hperm Htick.
  apply weighted_round_robin_Done in Htick as (s & Hs & Hloop & _).
  apply slice_of_Done in Hs as (_ & _ & _ & HN).
  rewrite (shuffle_length ea Hperm) in HN.
  destruct (loop_invariant _ s (index_invariant s) fuel (init (shuffle ea)) (at_exit r))
    as [[_ Hlog] _]; [|exact Hloop|].
  - split; [|constructor]. cbn. lia.
  - unfold executions. apply Forall_reverse. rewrite <- HN. exact Hlog.
Qed.

(** The dead count never passes [N]. *)
Lemma deadcount_invariant (s : slice) (st st' : loop_state) :
  loop_cond s st = true ->
  (deadcount st <= N_start s)%nat ->
  body s st = Done st' ->
  (deadcount st' <= N_start s)%nat.
Proof.
  intros Hc Hinv Hbody.
  unfold loop_cond in Hc. apply andb_prop in Hc as [_ Hd]. apply Nat.ltb_lt in Hd.
  apply body_Done in Hbody as (st1 & st2 & H1 & H2 & ->).
  apply begin_period_Done in H1 as (_ & _ & _ & Hd1 & _).
  apply visit_Done in H2 as (p & _ & _ & _ & [(_ & n & _ & _ & _ & Hd2 & _)|(_ & _ & _ & Hd2 & _)]);
    cbn; lia.
Qed.

(** X2: the tick returns within [budget + N] passes of the loop when the
    period has a non-zero length, every living individual is granted at least
    one cycle and [execute] never shrinks the population; it is then left
    either because the budget is used up or because [N] dead individuals have
    been met. *)
Theorem tick_returns_with_reason (ea : EA) (pl : Z) (fuel : nat) :
  shuffle_permutes ->
  (forall n i e, (length (population e) <= length (population (execute n i e)))%nat) ->
  (forall p e, alive p = true ->
     exists n, double_to_size_t (acc p e) = Some n /\ 1 <= n <= 2 ^ 62) ->
  ncycles_of (shuffle ea) = Some pl -> pl <> 0 ->
  (Z.to_nat (budget_of (shuffle ea)) + length (population ea) <= fuel)%nat ->
  exists r,
    weighted_round_robin fuel ea = Done r /\
    (deadcount (at_exit r) <= length (population ea))%nat /\
    (budget_of (shuffle ea) <= consumed (at_exit r) \/
     deadcount (at_exit r) = length (population ea)).
Proof.
  intros Hperm Hgrow Hacc Hpl Hnz Hfuel.
  destruct (weighted_round_robin_returns ea pl fuel Hperm Hgrow Hacc Hpl Hnz Hfuel)
    as [r Hr].
  exists r. split; [exact Hr|].
  apply weighted_round_robin_Done in Hr as (s & Hs & Hloop & _).
  apply slice_of_Done in Hs as (Hb & _ & _ & HN).
  rewrite (shuffle_length ea Hperm) in HN.
  destruct (loop_invariant _ s (deadcount_invariant s) fuel (init (shuffle ea)) (at_exit r))
    as [Hd Hc]; [cbn; lia|exact Hloop|].
  rewrite <- HN, <- Hb. split; [exact Hd|].
  unfold loop_cond in Hc. apply andb_false_iff in Hc as [Hc|Hc].
  - left. apply Z.ltb_ge in Hc. exact Hc.
  - right. apply Nat.ltb_ge in Hc. lia.
Qed.

(** The resource pool is advanced once for each update logged, provided
    [execute] leaves it alone. *)
Lemma resources_invariant (s : slice) (res0 : Resources) :
  (forall n i e, resources (execute n i e) = resources e) ->
  forall st st',
    loop_cond s st = true ->
    resources (cur st) =
      Nat.iter (length (logged_periods (log st))) (resources_update (delta_t s)) res0 ->
    body s st = Done st' ->
    resources (cur st') =
      Nat.iter (length (logged_periods (log st'))) (resources_update (delta_t s)) res0.
Proof.
  intros Hres st st' _ Hinv Hbody.
  apply body_Done in Hbody as (st1 & st2 & H1 & H2 & ->).
  apply begin_period_Done in H1 as (_ & _ & _ & _ & _ & _ & Hupd).
  apply visit_Done in H2 as (p & _ & _ & _ & Hv).
  cbn [advance cur log].
  assert (H1 : resources (cur st1) =
               Nat.iter (length (logged_periods (log st1)))
                        (resources_update (delta_t s)) res0).
  { cbn in Hupd. destruct Hupd as [(_ & ->)|(_ & -> & ->)]; [exact Hinv|].
    cbn. rewrite Hinv. reflexivity. }
  destruct Hv as [(_ & n & _ & -> & _ & _ & ->)|(_ & -> & _ & _ & ->)];
    [|exact H1].
  rewrite Hres. exact H1.
Qed.

(** X3: when [execute] does not touch the resource pool, the pool a tick
    leaves is the one it found, advanced by [delta_t] exactly once for each
    period logged as updated, and by nothing else. *)
Theorem resources_advanced_once_per_update (fuel : nat) (ea : EA) (r : tick_result) :
  (forall n i e, resources (execute n i e) = resources e) ->
  weighted_round_robin fuel ea = Done r ->
  resources (next_ea r) =
    Nat.iter (length (update_periods (log (at_exit r))))
             (resources_update (delta_t_of (shuffle ea))) (resources ea).
Proof.
  intros Hres Htick.
  apply weighted_round_robin_Done in Htick as (s & Hs & Hloop & ->).
  apply slice_of_Done in Hs as (_ & Hdt & _).
  destruct (loop_invariant _ s (resources_invariant s (resources ea) Hres)
              fuel (init (shuffle ea)) (at_exit r)) as [Hinv _];
    [|exact Hloop|].
  - cbn. unfold shuffle. destruct (random_shuffle _ _). reflexivity.
  - unfold rebuild, set_population, update_periods. cbn.
    rewrite length_reverse, <- Hdt. exact Hinv.
Qed.

(** X4: with [resource_slice = 0] the step [1.0 / 0] is infinite, the period
    length is the conversion to [long] of an infinite or NaN double, which is
    undefined: the tick stops there, before the loop, for every population. *)
Theorem zero_resource_slice_is_undefined (fuel : nat) (ea : EA) :
  SCHEDULER_RESOURCE_SLICE ea = 0 ->
  weighted_round_robin fuel ea = BadConversion.
Proof.
  intros Hrs. unfold weighted_round_robin, slice_of, ncycles_of, delta_t_of.
  destruct (shuffle_fields ea) as (_ & _ & -> & _). rewrite Hrs.
  replace (ddiv (of_Z 1) (of_Z 0)) with (S754_infinity false) by reflexivity.
  unfold double_to_long, dmul.
  destruct (of_Z (budget_of (shuffle ea))) as [b|b| |b m e]; reflexivity.
Qed.

(** X5: a zero period length under a positive budget is not caught: for a
    non-empty population the first pass of the loop divides by zero. *)
Theorem zero_period_divides_by_zero (fuel : nat) (ea : EA) :
  population (shuffle ea) <> [] ->
  0 < budget_of (shuffle ea) ->
  ncycles_of (shuffle ea) = Some 0 ->
  weighted_round_robin (S fuel) ea = DivideByZero.
Proof.
  intros Hne Hb Hpl. unfold weighted_round_robin, slice_of. rewrite Hpl. cbn.
  unfold loop_cond. cbn.
  replace (0 <? budget_of (shuffle ea)) with true by (symmetry; apply Z.ltb_lt; lia).
  destruct (population (shuffle ea)); [contradiction|]. reflexivity.
Qed.

(** X6: an empty population, with a resource slice for which the period
    length is defined: the tick returns at once, has called neither [update]
    nor [execute], and leaves the population empty. *)
Theorem empty_population_tick (fuel : nat) (ea : EA) (pl : Z) :
  shuffle_permutes ->
  population ea = [] ->
  ncycles_of (shuffle ea) = Some pl ->
  exists r,
    weighted_round_robin fuel ea = Done r /\
    log (at_exit r) = [] /\ consumed (at_exit r) = 0 /\
    population (next_ea r) = [] /\ resources (next_ea r) = resources ea.
Proof.
  intros Hperm Hpop Hpl.
  assert (Hpop' : population (shuffle ea) = []).
  { apply length_zero_iff_nil. rewrite (shuffle_length ea Hperm), Hpop. reflexivity. }
  exists (mkTick (rebuild (shuffle ea)) (init (shuffle ea))).
  split.
  - unfold weighted_round_robin, slice_of. rewrite Hpl. cbn.
    replace (loop fuel _ (init (shuffle ea))) with (Done (init (shuffle ea)));
      [reflexivity|].
    destruct fuel; cbn; unfold loop_cond; cbn; rewrite Hpop', andb_false_r;
      reflexivity.
  - cbn. rewrite Hpop'. repeat split.
    unfold shuffle. destruct (random_shuffle _ _). reflexivity.
Qed.

(** While every individual lives and is granted no cycle, nothing changes
    and the loop is not left. *)
Lemma zero_quanta_loop (s : slice) (pop0 : list Individual) :
  ncycles_per_period s <> 0 -> 0 < budget s ->
  N_start s = length pop0 ->
  Forall (fun p => alive p = true) pop0 ->
  (forall p e, double_to_size_t (acc p e) = Some 0) ->
  (forall i e, population (execute 0 i e) = population e) ->
  forall fuel st,
    population (cur st) = pop0 -> consumed st = 0 -> deadcount st = 0%nat ->
    (idx st < N_start s)%nat ->
    loop fuel s st = OutOfFuel.
Proof.
  intros Hpl Hb HN Halive Hacc Hpop fuel.
  induction fuel as [|fuel IH]; intros st Hp Hc Hd Hi; cbn;
    unfold loop_cond; rewrite Hc, Hd;
    replace (0 <? budget s) with true by (symmetry; apply Z.ltb_lt; lia);
    replace (0 <? N_start s)%nat with true by (symmetry; apply Nat.ltb_lt; lia);
    cbn; [reflexivity|].
  unfold body.
  destruct (begin_period_total s st Hpl) as [st1 H1]. rewrite H1. cbn [bind].
  apply begin_period_Done in H1 as (_ & Hc1 & Hi1 & Hd1 & Hp1 & _).
  unfold visit. rewrite Hp1, Hi1, Hp.
  destruct (lookup_lt_is_Some_2 pop0 (idx st)) as [p Hlp]; [lia|].
  rewrite Hlp.
  rewrite (proj1 (Forall_forall _ _) Halive p) by (eapply list_elem_of_lookup_2; eauto).
  rewrite Hacc. cbn [bind].
  apply IH; cbn.
  - rewrite Hpop, Hp1. exact Hp.
  - rewrite Hc1, Hc. reflexivity.
  - lia.
  - apply Nat.mod_upper_bound. lia.
Qed.

(** X7: priorities that convert to a quantum of zero cycles: when every
    individual lives, an execution of zero cycles leaves the population as
    it is, the budget is positive and the period has a non-zero length, the
    loop consumes nothing and counts no dead, so that the tick never
    returns: whatever the number of passes allowed, it is still running. *)
Theorem zero_priority_never_returns (fuel : nat) (ea : EA) (pl : Z) :
  shuffle_permutes ->
  population ea <> [] ->
  Forall (fun p => alive p = true) (population ea) ->
  (forall p e, double_to_size_t (acc p e) = Some 0) ->
  (forall i e, population (execute 0 i e) = population e) ->
  0 < budget_of (shuffle ea) ->
  ncycles_of (shuffle ea) = Some pl -> pl <> 0 ->
  weighted_round_robin fuel ea = OutOfFuel.
Proof.
  intros Hperm Hne Halive Hacc Hpop Hb Hpl Hnz.
  unfold weighted_round_robin, slice_of. rewrite Hpl. cbn [bind].
  rewrite (zero_quanta_loop _ (population (shuffle ea))); cbn;
    try reflexivity; try assumption.
  - destruct (shuffle_fields ea) as (_ & _ & _ & ->).
    rewrite (Hperm (population ea) (rng ea)). exact Halive.
  - rewrite (shuffle_length ea Hperm). destruct (population ea); [contradiction|cbn; lia].
Qed.

Lemma filter_all {A : Type} (P : A -> Prop) `{forall x, Decision (P x)} (l : list A) :
  Forall P l -> filter P l = l.
Proof.
  induction 1 as [|x l Hx _ IH]; [reflexivity|].
  rewrite filter_cons_True by exact Hx. f_equal. exact IH.
Qed.

(** With quanta of one cycle, a population that stays as it is and is all
    alive, the loop executes the indices [k mod N], [k+1 mod N], ... in turn
    until the budget is used up. *)
Lemma unit_quanta_take_turns (s : slice) (pop0 : list Individual) :
  ncycles_per_period s <> 0 -> budget s < 2 ^ 32 ->
  N_start s = length pop0 -> pop0 <> [] ->
  Forall (fun p => alive p = true) pop0 ->
  (forall p e, double_to_size_t (acc p e) = Some 1) ->
  (forall n i e, population (execute n i e) = population e) ->
  forall (m : nat) (st : loop_state) (k : nat),
    population (cur st) = pop0 ->
    consumed st = Z.of_nat k -> Z.of_nat k + Z.of_nat m = budget s ->
    idx st = (k mod N_start s)%nat -> deadcount st = 0%nat ->
    logged_executions (log st) =
      reverse ((fun j => ((j mod N_start s)%nat, 1)) <$> seq 0 k) ->
    exists st',
      loop m s st = Done st' /\
      consumed st' = budget s /\ deadcount st' = 0%nat /\
      population (cur st') = pop0 /\
      logged_executions (log st') =
        reverse ((fun j => ((j mod N_start s)%nat, 1)) <$> seq 0 (k + m)).
Proof.
  intros Hpl Hb HN Hne Halive Hacc Hpop m.
  assert (HN0 : (0 < N_start s)%nat).
  { rewrite HN. destruct pop0; [contradiction|cbn; lia]. }
  induction m as [|m IH]; intros st k Hp Hc Hk Hi Hd Hlog.
  - exists st. cbn. unfold loop_cond.
    replace (consumed st <? budget s) with false by (symmetry; apply Z.ltb_ge; lia).
    rewrite Nat.add_0_r. repeat split; try assumption. lia.
  - cbn. unfold loop_cond. rewrite Hd.
    replace (consumed st <? budget s) with true by (symmetry; apply Z.ltb_lt; lia).
    replace (0 <? N_start s)%nat with true by (symmetry; apply Nat.ltb_lt; lia).
    cbn. unfold body.
    destruct (begin_period_total s st Hpl) as [st1 H1]. rewrite H1. cbn [bind].
    apply begin_period_Done in H1 as (_ & Hc1 & Hi1 & Hd1 & Hp1 & _ & Hupd).
    assert (Hlog1 : logged_executions (log st1) = logged_executions (log st)).
    { cbn in Hupd. destruct Hupd as [(_ & ->)|(_ & _ & ->)]; reflexivity. }
    unfold visit. rewrite Hp1, Hi1, Hp.
    destruct (lookup_lt_is_Some_2 pop0 (idx st)) as [p Hlp].
    { rewrite Hi, <- HN. apply Nat.mod_upper_bound. lia. }
    rewrite Hlp.
    rewrite (proj1 (Forall_forall _ _) Halive p) by (eapply list_elem_of_lookup_2; eauto).
    rewrite Hacc. cbn [bind].
    destruct (IH (advance s (mkLoop (execute 1 (idx st) (cur st1))
                                    (to_long (consumed st1 + 1)) (last_period st1)
                                    (idx st) (deadcount st1)
                                    (Executed (idx st) 1 :: log st1))) (S k))
      as (st' & Hrun & Hres); cbn [advance cur consumed idx deadcount log].
    + rewrite Hpop, Hp1. exact Hp.
    + rewrite Hc1, Hc, to_long_small; lia.
    + lia.
    + rewrite Hi. replace (S k) with (k + 1)%nat by lia.
      replace (S (k mod N_start s)) with (k mod N_start s + 1)%nat by lia.
      apply Nat.Div0.add_mod_idemp_l.
    + lia.
    + change (logged_executions (Executed (idx st) 1 :: log st1))
        with ((idx st, 1) :: logged_executions (log st1)).
      rewrite Hlog1, Hlog, seq_S, fmap_app. cbn [fmap list_fmap].
      rewrite reverse_snoc, Hi. reflexivity.
    + exists st'. split; [exact Hrun|].
      replace (k + S m)%nat with (S k + m)%nat by lia. exact Hres.
Qed.

(** The tick under quanta of one cycle, on a living population that
    [execute] leaves as it is. *)
Lemma unit_quanta_tick (fuel : nat) (ea : EA) (pl : Z) :
  shuffle_permutes ->
  population ea <> [] ->
  Forall (fun p => alive p = true) (population ea) ->
  (forall p e, double_to_size_t (acc p e) = Some 1) ->
  (forall n i e, population (execute n i e) = population e) ->
  ncycles_of (shuffle ea) = Some pl -> pl <> 0 ->
  (Z.to_nat (budget_of (shuffle ea)) <= fuel)%nat ->
  exists r,
    weighted_round_robin fuel ea = Done r /\
    consumed (at_exit r) = budget_of (shuffle ea) /\
    executions (log (at_exit r)) =
      (fun j => ((j mod length (population ea))%nat, 1))
        <$> seq 0 (Z.to_nat (budget_of (shuffle ea))) /\
    population (next_ea r) = population (shuffle ea).
Proof.
  intros Hperm Hne Halive Hacc Hpop Hpl Hnz Hfuel.
  pose proof (shuffle_length ea Hperm) as Hlen.
  pose proof (budget_of_range (shuffle ea)) as Hr.
  set (s := mkSlice (budget_of (shuffle ea)) (delta_t_of (shuffle ea)) pl
                    (length (population (shuffle ea)))).
  assert (Halive' : Forall (fun p => alive p = true) (population (shuffle ea))).
  { destruct (shuffle_fields ea) as (_ & _ & _ & ->).
    rewrite (Hperm (population ea) (rng ea)). exact Halive. }
  destruct (unit_quanta_take_turns s (population (shuffle ea)))
    with (m := Z.to_nat (budget_of (shuffle ea))) (st := init (shuffle ea)) (k := 0%nat)
    as (st' & Hrun & Hc & Hd & Hp & Hlog); cbn; try reflexivity; try assumption;
    try lia.
  { intros E. apply (f_equal length) in E. rewrite Hlen in E.
    destruct (population ea); [contradiction|discriminate]. }
  { symmetry. apply Nat.Div0.mod_0_l. }
  exists (mkTick (rebuild (cur st')) st'). split; [|split; [|split]].
  - unfold weighted_round_robin, slice_of. rewrite Hpl. cbn [bind]. fold s.
    replace fuel with (Z.to_nat (budget_of (shuffle ea))
                       + (fuel - Z.to_nat (budget_of (shuffle ea))))%nat by lia.
    rewrite (loop_fuel_mono s _ _ _ _ Hrun). reflexivity.
  - exact Hc.
  - unfold s in Hlog. cbn [N_start] in Hlog. cbn [at_exit].
    unfold executions. rewrite Hlog, reverse_involutive, Hlen. reflexivity.
  - cbn. rewrite Hp. apply filter_all. exact Halive'.
Qed.

End Model.

Arguments EA : clear implicits.
Arguments loop_state : clear implicits.
Arguments tick_result : clear implicits.


(** [round_robin]: the scheduler with the fixed priority accessor. *)
Definition round_robin {Individual Rng Resources : Type}
    (alive : Individual -> bool)
    (execute : Z -> nat -> EA Individual Rng Resources -> EA Individual Rng Resources)
    (resources_update : double -> Resources -> Resources)
    (random_shuffle : list Individual -> Rng -> list Individual * Rng) :=
  weighted_round_robin alive fixed_priority execute resources_update random_shuffle.

(** *** Round robin: the tick returns, within the budget *)

(** With the fixed priority accessor, a period of non-zero length and an
    [execute] that never shrinks the population, the tick returns and has
    consumed at most [time_slice * min(N, max_population_size)] cycles. *)
Lemma round_robin_within_budget {Individual Rng Resources : Type}
    (alive : Individual -> bool)
    (execute : Z -> nat -> EA Individual Rng Resources -> EA Individual Rng Resources)
    (resources_update : double -> Resources -> Resources)
    (random_shuffle : list Individual -> Rng -> list Individual * Rng)
    (ea : EA Individual Rng Resources) (pl : Z) (fuel : nat) :
  shuffle_permutes random_shuffle ->
  (forall n i e, (length (population e) <= length (population (execute n i e)))%nat) ->
  0 <= SCHEDULER_TIME_SLICE ea -> 0 <= POPULATION_SIZE ea ->
  ncycles_of (shuffle random_shuffle ea) = Some pl -> pl <> 0 ->
  (Z.to_nat (budget_of (shuffle random_shuffle ea)) + length (population ea) <= fuel)%nat ->
  exists r,
    round_robin alive execute resources_update random_shuffle fuel ea = Done r /\
    0 <= consumed (at_exit r) <= spec_budget ea.
Proof.
  intros Hperm Hgrow Hts Hps Hpl Hnz Hfuel.
  assert (Hone : forall (p : Individual) (e : EA Individual Rng Resources),
             double_to_size_t (fixed_priority p e) = Some 1) by reflexivity.
  destruct (weighted_round_robin_returns alive fixed_priority execute
              resources_update random_shuffle ea pl fuel Hperm Hgrow)
    as [r Hr]; try assumption.
  { intros p e _. exists 1. split; [apply Hone|lia]. }
  exists r. split; [exact Hr|].
  assert (0 <= consumed (at_exit r) <= spec_budget ea + 1 - 1); [|lia].
  apply (consumed_at_exit_bound alive fixed_priority execute
           resources_update random_shuffle 1 fuel ea r Hperm Hts Hps ltac:(lia));
    [|exact Hr].
  intros p e n Hn. rewrite Hone in Hn. injection Hn as <-. lia.
Qed.

(** ** Concrete runs *)

(** A small organism: whether it lives, and the priority the [priority]
    accessor reads: 20 cycles for the boosted ones, one cycle otherwise. *)
Record organism : Type := mkOrg { org_alive : bool; org_boosted : bool }.

Definition world : Type := EA organism unit nat.

(** [access::priority]: the priority stored in the individual. *)
Definition priority (ind : organism) (ea : world) : double :=
  of_Z (if org_boosted ind then 20 else 1).

(** An [execute] without effect on the population. *)
Definition idle (n : Z) (i : nat) (ea : world) : world := ea.

(** An [execute] after which the individual has died and left one living
    offspring at the end of the population. *)
Definition breed (n : Z) (i : nat) (ea : world) : world :=
  mkEA (<[i := mkOrg false false]> (population ea) ++ [mkOrg true false])
       (rng ea) (resources ea)
       (POPULATION_SIZE ea) (SCHEDULER_TIME_SLICE ea) (SCHEDULER_RESOURCE_SLICE ea).

(** The resource pool, reduced to the number of updates it has seen. *)
Definition count_update (dt : double) (r : nat) : nat := S r.

(** A shuffle that happens to leave the order as it is. *)
Definition keep_order (l : list organism) (g : unit) : list organism * unit := (l, g).

Definition living : organism := mkOrg true false.
Definition boosted : organism := mkOrg true true.
Definition dead : organism := mkOrg false false.

Definition run (execute : Z -> nat -> world -> world) :=
  weighted_round_robin org_alive priority execute count_update keep_order.

(** The summary of a tick: cycles consumed, periods updated, number of
    executions, dead count, and the population left. *)
Definition summary (o : outcome (tick_result organism unit nat)) :=
  match o with
  | Done r =>
      Some (consumed (at_exit r), update_periods (log (at_exit r)),
            length (executions (log (at_exit r))), deadcount (at_exit r),
            population (next_ea r))
  | _ => None
  end.

Lemma keep_order_permutes : shuffle_permutes keep_order.
Proof. intros l g. reflexivity. Qed.

Lemma priority_quantum (p : organism) (e : world) (n : Z) :
  double_to_size_t (priority p e) = Some n -> 1 <= n <= 20.
Proof.
  unfold priority. destruct (org_boosted p); vm_compute; intros H;
    inversion H; subst; split; discriminate.
Qed.

(** The scenario of the specification: four organisms, fixed priority,
    [time_slice = 10], [resource_slice = 5]: budget 40, periods of 8 cycles,
    five updates and forty executions. *)
Example scenario_four_organisms :
  summary (round_robin org_alive idle count_update keep_order 100
             (mkEA [living; living; living; living] tt 0%nat 4 10 5))
  = Some (40, [0; 1; 2; 3; 4], 40%nat, 0%nat, [living; living; living; living]).
Proof. vm_compute. reflexivity. Qed.

(** A population of three with two dead: the loop is left when the dead have
    been met three times, with 28 of the 30 cycles unused. *)
Example scenario_two_dead :
  summary (run idle 100 (mkEA [living; dead; dead] tt 0%nat 4 10 5))
  = Some (2, [0], 2%nat, 3%nat, [living]).
Proof. vm_compute. reflexivity. Qed.

(** Offspring appended during the tick are not executed in it, and are kept
    when the population is rebuilt. *)
Example scenario_offspring :
  summary (run breed 100 (mkEA [living; living] tt 0%nat 4 10 5))
  = Some (2, [0], 2%nat, 2%nat, [living; living]).
Proof. vm_compute. reflexivity. Qed.


(** *** The claims at concrete inputs *)

(** C2, as stated, fails: one boosted organism with [time_slice = 1] is
    granted its whole quantum of 20 cycles against a budget of one cycle. *)
Lemma quantum_overshoots_budget :
  let ea := mkEA [boosted] tt 0%nat 1 1 1 in
  exists r,
    run idle 10 ea = Done r /\
    spec_budget ea = 1 /\
    consumed (at_exit r) = 20 /\
    ~ consumed (at_exit r) <= spec_budget ea.
Proof.
  cbn zeta. eexists. split; [vm_compute; reflexivity|].
  split; [reflexivity|]. split; [reflexivity|].
  intros H. vm_compute in H. apply H. reflexivity.
Qed.

Lemma cycles_within_budget_plus_quantum_witness :
  let ea := mkEA [boosted] tt 0%nat 1 1 1 in
  exists r,
    run idle 10 ea = Done r /\
    0 <= consumed (at_exit r) <= spec_budget ea + 20 - 1.
Proof.
  cbn zeta. unfold run.
  eassert (E : weighted_round_robin org_alive priority idle count_update keep_order 10
                 (mkEA [boosted] tt 0%nat 1 1 1) = Done _)
    by (vm_compute; reflexivity).
  eexists. split; [exact E|].
  apply (cycles_within_budget_plus_quantum org_alive priority idle count_update
           keep_order 20 10 (mkEA [boosted] tt 0%nat 1 1 1) _).
  - exact keep_order_permutes.
  - cbn; lia.
  - cbn; lia.
  - lia.
  - intros p e n Hn. apply priority_quantum in Hn. lia.
  - exact E.
Defined.

(** C3, as stated, fails: with periods of 8 cycles in a budget of 40, a
    quantum of 20 cycles carries the counter from period 0 into period 2;
    period 1 gets no update, and the tick ends after two updates, not five. *)
Lemma quantum_jumps_over_a_period :
  let ea := mkEA [boosted; living; living; living] tt 0%nat 4 10 5 in
  exists r,
    run idle 100 ea = Done r /\
    budget_of ea = 40 /\ ncycles_of ea = Some 8 /\ ceil_div 40 8 = 5 /\
    update_periods (log (at_exit r)) = [0; 2] /\
    Z.of_nat (length (update_periods (log (at_exit r)))) <> ceil_div 40 8.
Proof.
  cbn zeta. eexists. split; [vm_compute; reflexivity|].
  do 4 (split; [reflexivity|]). vm_compute. discriminate.
Qed.

(** A priority of [1e19] converts to a quantum that does not fit a [long]. *)
Definition huge (ind : organism) (ea : world) : double := of_Z (10 ^ 19).

(** Why the bound on the quanta is part of C3 as amended: with one organism,
    a budget of one cycle in one period and a quantum of [1e19] cycles, the
    cycle counter wraps below zero, the loop makes a second pass, in a period
    of negative number, and the pool is updated twice. *)
Example wrapping_quantum_updates_twice :
  let ea := mkEA [living] tt 0%nat 1 1 1 in
  exists r,
    weighted_round_robin org_alive huge idle count_update keep_order 10 ea = Done r /\
    budget_of ea = 1 /\ ncycles_of ea = Some 1 /\ ceil_div 1 1 = 1 /\
    double_to_size_t (huge living ea) = Some (10 ^ 19) /\
    length (update_periods (log (at_exit r))) = 2%nat.
Proof.
  cbn zeta. eexists. split; [vm_compute; reflexivity|].
  vm_compute. repeat split; reflexivity.
Qed.

Lemma resource_updates_per_period_witness :
  let ea := mkEA [living; living; living; living] tt 0%nat 4 10 5 in
  exists r,
    round_robin org_alive idle count_update keep_order 100 ea = Done r /\
    NoDup (update_periods (log (at_exit r))) /\
    (forall p,
       p ∈ update_periods (log (at_exit r)) <->
       exists c,
         c ∈ pass_starts org_alive fixed_priority idle count_update 100
               (mkSlice (budget_of (shuffle keep_order ea))
                        (delta_t_of (shuffle keep_order ea)) 8
                        (length (population (shuffle keep_order ea))))
               (init (shuffle keep_order ea)) /\
         p = to_int (c / 8)) /\
    update_periods (log (at_exit r)) =
      to_int <$> seqZ 0 (ceil_div (budget_of (shuffle keep_order ea)) 8).
Proof.
  cbn zeta. unfold round_robin.
  eassert (E : weighted_round_robin org_alive fixed_priority idle count_update keep_order 100
                 (mkEA [living; living; living; living] tt 0%nat 4 10 5) = Done _)
    by (vm_compute; reflexivity).
  eexists. split; [exact E|].
  edestruct (resource_updates_per_period org_alive fixed_priority idle count_update
               keep_order 1 100
               (mkEA [living; living; living; living] tt 0%nat 4 10 5) 8)
    as (_ & Hnd & Hstarts & _ & Hexact); [| | | |exact E|].
  - lia.
  - intros p e n Hn. vm_compute in Hn. injection Hn as <-. lia.
  - vm_compute; reflexivity.
  - lia.
  - split; [exact Hnd|]. split; [exact Hstarts|]. apply Hexact; [lia|].
    vm_compute. discriminate.
Defined.

Lemma tick_keeps_exactly_the_living_witness :
  let ea := mkEA [living; dead; living] tt 0%nat 4 10 5 in
  exists r,
    run breed 100 ea = Done r /\
    population (next_ea r) =
      filter (fun p => org_alive p = true) (population (cur (at_exit r))) /\
    Forall (fun p => org_alive p = true) (population (next_ea r)).
Proof.
  cbn zeta. unfold run.
  eassert (E : weighted_round_robin org_alive priority breed count_update keep_order 100
                 (mkEA [living; dead; living] tt 0%nat 4 10 5) = Done _)
    by (vm_compute; reflexivity).
  eexists. split; [exact E|].
  destruct (tick_keeps_exactly_the_living org_alive priority breed count_update
              keep_order 100 (mkEA [living; dead; living] tt 0%nat 4 10 5) _ E)
    as (_ & Hf & Hall & _).
  split; assumption.
Defined.



Lemma all_dead_tick_updates_resources_once_witness :
  let ea := mkEA [dead; dead; dead] tt 0%nat 4 10 5 in
  exists r,
    run idle 3 ea = Done r /\
    update_periods (log (at_exit r)) = [0] /\
    resources (next_ea r) = 1%nat.
Proof.
  cbn zeta.
  destruct (all_dead_tick_updates_resources_once org_alive priority idle
              count_update keep_order 3
              (mkEA [dead; dead; dead] tt 0%nat 4 10 5) 6)
    as (r & Hr & _ & Hp & _ & _ & _ & Hres).
  - exact keep_order_permutes.
  - discriminate.
  - repeat constructor.
  - vm_compute; reflexivity.
  - discriminate.
  - cbn; lia.
  - exists r. auto.
Defined.

(** C6: no configuration is rejected before the loop.  With
    [time_slice = 1], [resource_slice = 2] and one living organism the budget
    is one cycle, the period length [long(1 * 0.5)] is zero, the loop is
    entered ([0 < 1] and [0 < 1]) and its first statement divides by zero. *)
Theorem zero_period_reaches_the_division :
  let ea := mkEA [living] tt 0%nat 1 1 2 in
  budget_of ea = 1 /\ ncycles_of ea = Some 0 /\
  loop_cond (mkSlice 1 (delta_t_of ea) 0 1) (init ea) = true /\
  run idle 10 ea = DivideByZero.
Proof. vm_compute. auto. Qed.

(** The same with [resource_slice = time_slice * N = 49], where the exact
    quotient is one cycle per period: [49 * (1.0 / 49)] is rounded to the
    double just below 1 and truncated to zero. *)
Example rounding_yields_zero_period :
  let ea := mkEA (replicate 49 living) tt 0%nat 49 1 49 in
  budget_of ea = 49 /\ ncycles_of ea = Some 0 /\
  run idle 100 ea = DivideByZero.
Proof. vm_compute. auto. Qed.


(** *** Further properties, at concrete inputs *)

(** X8: with a period of non-zero length, [round_robin] on a living
    population that [execute] leaves as it is uses its whole budget, one
    cycle at a time, on the individuals in turn: the [k]-th execution is
    that of index [k mod N]. *)
Theorem round_robin_takes_turns {Individual Rng Resources : Type}
    (alive : Individual -> bool)
    (execute : Z -> nat -> EA Individual Rng Resources -> EA Individual Rng Resources)
    (resources_update : double -> Resources -> Resources)
    (random_shuffle : list Individual -> Rng -> list Individual * Rng)
    (ea : EA Individual Rng Resources) (pl : Z) (fuel : nat) :
  shuffle_permutes random_shuffle ->
  population ea <> [] ->
  Forall (fun p => alive p = true) (population ea) ->
  (forall n i e, population (execute n i e) = population e) ->
  ncycles_of (shuffle random_shuffle ea) = Some pl -> pl <> 0 ->
  (Z.to_nat (budget_of (shuffle random_shuffle ea)) <= fuel)%nat ->
  exists r,
    round_robin alive execute resources_update random_shuffle fuel ea = Done r /\
    consumed (at_exit r) = budget_of (shuffle random_shuffle ea) /\
    executions (log (at_exit r)) =
      (fun j => ((j mod length (population ea))%nat, 1))
        <$> seq 0 (Z.to_nat (budget_of (shuffle random_shuffle ea))) /\
    population (next_ea r) = population (shuffle random_shuffle ea).
Proof.
  intros Hperm Hne Halive Hpop Hpl Hnz Hfuel.
  apply (unit_quanta_tick alive fixed_priority execute resources_update
           random_shuffle fuel ea pl); try assumption.
  intros p e. reflexivity.
Qed.

Lemma round_robin_takes_turns_witness :
  let ea := mkEA [living; living; living] tt 0%nat 4 2 2 in
  exists r,
    round_robin org_alive idle count_update keep_order 6 ea = Done r /\
    consumed (at_exit r) = budget_of (shuffle keep_order ea) /\
    executions (log (at_exit r)) =
      (fun j => ((j mod 3)%nat, 1)) <$> seq 0 (Z.to_nat (budget_of (shuffle keep_order ea))) /\
    population (next_ea r) = population (shuffle keep_order ea).
Proof.
  cbn zeta.
  apply (round_robin_takes_turns org_alive idle count_update keep_order
           (mkEA [living; living; living] tt 0%nat 4 2 2) 3 6).
  - exact keep_order_permutes.
  - discriminate.
  - repeat constructor.
  - reflexivity.
  - vm_compute; reflexivity.
  - discriminate.
  - vm_compute. lia.
Defined.

Lemma offspring_not_executed_witness :
  let ea := mkEA [living; living] tt 0%nat 4 10 5 in
  exists r,
    run breed 100 ea = Done r /\
    length (population (cur (at_exit r))) = 4%nat /\
    Forall (fun x => (x.1 < 2)%nat) (executions (log (at_exit r))).
Proof.
  cbn zeta. unfold run.
  eassert (E : weighted_round_robin org_alive priority breed count_update keep_order
                 100 (mkEA [living; living] tt 0%nat 4 10 5) = Done _)
    by (vm_compute; reflexivity).
  eexists. split; [exact E|]. split; [reflexivity|].
  exact (offspring_not_executed org_alive priority breed count_update keep_order
           100 (mkEA [living; living] tt 0%nat 4 10 5) _ keep_order_permutes E).
Defined.

Lemma priority_grants_a_cycle (p : organism) (e : world) :
  org_alive p = true ->
  exists n, double_to_size_t (priority p e) = Some n /\ 1 <= n <= 2 ^ 62.
Proof.
  intros _. unfold priority. destruct (org_boosted p).
  - exists 20. split; [reflexivity|lia].
  - exists 1. split; [reflexivity|lia].
Qed.

Lemma tick_returns_with_reason_witness :
  let ea := mkEA [living; dead; dead] tt 0%nat 4 10 5 in
  exists r,
    run idle 33 ea = Done r /\
    (deadcount (at_exit r) <= 3)%nat /\
    (budget_of (shuffle keep_order ea) <= consumed (at_exit r) \/
     deadcount (at_exit r) = 3%nat).
Proof.
  cbn zeta.
  apply (tick_returns_with_reason org_alive priority idle count_update keep_order
           (mkEA [living; dead; dead] tt 0%nat 4 10 5) 6 33).
  - exact keep_order_permutes.
  - intros n i e. reflexivity.
  - exact priority_grants_a_cycle.
  - vm_compute; reflexivity.
  - discriminate.
  - vm_compute. lia.
Defined.

Lemma resources_advanced_once_per_update_witness :
  let ea := mkEA [boosted; living; living; living] tt 0%nat 4 10 5 in
  exists r,
    run idle 100 ea = Done r /\
    resources (next_ea r) =
      Nat.iter (length (update_periods (log (at_exit r))))
               (count_update (delta_t_of (shuffle keep_order ea))) 0%nat.
Proof.
  cbn zeta. unfold run.
  eassert (E : weighted_round_robin org_alive priority idle count_update keep_order
                 100 (mkEA [boosted; living; living; living] tt 0%nat 4 10 5) = Done _)
    by (vm_compute; reflexivity).
  eexists. split; [exact E|].
  apply (resources_advanced_once_per_update org_alive priority idle count_update
           keep_order 100 (mkEA [boosted; living; living; living] tt 0%nat 4 10 5) _);
    [|exact E].
  intros n i e. reflexivity.
Defined.

Lemma zero_resource_slice_is_undefined_witness :
  run idle 100 (mkEA [living; living] tt 0%nat 4 10 0) = BadConversion.
Proof.
  apply (zero_resource_slice_is_undefined org_alive priority idle count_update
           keep_order 100 (mkEA [living; living] tt 0%nat 4 10 0)).
  reflexivity.
Defined.

Lemma zero_period_divides_by_zero_witness :
  run idle 1 (mkEA [living; dead] tt 0%nat 4 1 3) = DivideByZero.
Proof.
  apply (zero_period_divides_by_zero org_alive priority idle count_update
           keep_order 0 (mkEA [living; dead] tt 0%nat 4 1 3)).
  - discriminate.
  - vm_compute. reflexivity.
  - vm_compute. reflexivity.
Defined.

Lemma empty_population_tick_witness :
  exists r,
    run idle 0 (mkEA [] tt 0%nat 4 10 5) = Done r /\
    log (at_exit r) = [] /\ consumed (at_exit r) = 0 /\
    population (next_ea r) = [] /\ resources (next_ea r) = 0%nat.
Proof.
  apply (empty_population_tick org_alive priority idle count_update keep_order
           0 (mkEA [] tt 0%nat 4 10 5) 0).
  - exact keep_order_permutes.
  - reflexivity.
  - vm_compute; reflexivity.
Defined.

(** An accessor for priorities that are all zero. *)
Definition no_priority (ind : organism) (ea : world) : double := of_Z 0.

Lemma zero_priority_never_returns_witness :
  weighted_round_robin org_alive no_priority idle count_update keep_order 1000
    (mkEA [living; living] tt 0%nat 4 10 5) = OutOfFuel.
Proof.
  apply (zero_priority_never_returns org_alive no_priority idle count_update
           keep_order 1000 (mkEA [living; living] tt 0%nat 4 10 5) 4).
  - exact keep_order_permutes.
  - discriminate.
  - repeat constructor.
  - intros p e. reflexivity.
  - intros i e. reflexivity.
  - vm_compute. reflexivity.
  - vm_compute; reflexivity.
  - discriminate.
Defined.

End Scheduler.

(** ** Line of descent (line_of_descent.h) *)

Module LineOfDescent.

(** A [shared_ptr] to an individual, identified by the address it holds. *)
Abbreviation ptr := positive (only parsing).

Section Model.

Context {Repr : Type} `{EqDecision Repr}.

(** [individual_lod]: the representation, the set of parents, and the
    [FIXATION_TIME] meta-data when it exists. *)
Record individual : Type := mkInd {
  repr : Repr;
  lod_parents : gset positive;        (* std::set<individual_ptr_type> *)
  fixation_time : option Z
}.

(** The individuals in memory. *)
Abbreviation heap := (gmap positive individual) (only parsing).

(** [has_parents()]: [_lod_parents.size() > 0]. *)
Definition has_parents (o : individual) : bool :=
  (0 <? size (lod_parents o))%nat.

(** [*s.begin()]: the least element of a [std::set] of pointers. *)
Definition set_begin (s : gset positive) : option positive :=
  foldr (fun x acc => Some (match acc with Some y => Pos.min x y | None => x end))
        None (elements s).

(** [lod_parent()]: [*_lod_parents.begin()]. *)
Definition lod_parent (o : individual) : option positive :=
  set_begin (lod_parents o).

(** The representation of the individual [p] points to. *)
Definition repr_of (h : heap) (p : ptr) : option Repr := repr <$> h !! p.

(** The test of [uniq] and [runiq]: the individuals [i] and [back] point to
    have equal representations. *)
Definition same_repr (h : heap) (i back : ptr) : bool :=
  bool_decide (repr_of h i = repr_of h back).

(** *** [lineage] *)

(** The loop of [lineage(p)]: [lod] is the list built so far, [p] its front.
    The fuel bounds the number of [push_front]. *)
Fixpoint lineage_loop (fuel : nat) (h : heap) (p : ptr) (lod : list ptr)
  : option (list ptr) :=
  match h !! p with
  | None => None
  | Some o =>
      if has_parents o then
        match fuel, lod_parent o with
        | S fuel', Some q => lineage_loop fuel' h q (q :: lod)
        | _, _ => None
        end
      else Some lod
  end.

Definition lineage (fuel : nat) (h : heap) (p : ptr) : option (list ptr) :=
  lineage_loop fuel h p [p].

(** *** [uniq] and [runiq] *)

(** The loop of [uniq]: [back] is the element the iterator [back] points to,
    [rest] the elements from [i] on. An erased [back] is dropped, a kept one
    stays in front of what the rest of the loop leaves. *)
Fixpoint uniq_from (h : heap) (back : ptr) (rest : list ptr) : list ptr :=
  match rest with
  | [] => [back]
  | i :: rest' =>
      if same_repr h i back then uniq_from h i rest'
      else back :: uniq_from h i rest'
  end.

Definition uniq (h : heap) (lod : list ptr) : list ptr :=
  if (1 <? length lod)%nat then
    match lod with
    | back :: rest => uniq_from h back rest
    | [] => lod
    end
  else lod.

(** The loop of [runiq], on the list read from its end: [back] is the element
    [back] points to, [rest] the elements from [i] down to [begin()]. The loop
    is left when [i] is [begin()], before any comparison. *)
Fixpoint runiq_from (h : heap) (back : ptr) (rest : list ptr) : list ptr :=
  match rest with
  | [] => [back]
  | i :: rest' =>
      match rest' with
      | [] => [back; i]
      | _ :: _ =>
          if same_repr h i back then runiq_from h i rest'
          else back :: runiq_from h i rest'
      end
  end.

Definition runiq (h : heap) (lod : list ptr) : list ptr :=
  if (1 <? length lod)%nat then
    match reverse lod with
    | back :: rest => reverse (runiq_from h back rest)
    | [] => lod
    end
  else lod.

(** *** [mrca] *)

(** [x.use_count()]: the shared pointers that own [x] are the slots of the
    population, the parent sets of the individuals in memory, and the local
    variables of [mrca]. *)
Definition use_count (h : heap) (population locals : list ptr) (x : ptr) : nat :=
  (length (filter (fun y => y = x) population)
   + length (filter (fun kv => x ∈ lod_parents kv.2) (map_to_list h))
   + length (filter (fun y => y = x) locals))%nat.

(** The loop of [mrca]; the locals alive at the comparison are [offspring],
    [parent] and [m]. *)
Fixpoint mrca_loop (fuel : nat) (h : heap) (population : list ptr)
    (offspring m : ptr) : option ptr :=
  match h !! offspring with
  | None => None
  | Some o =>
      if has_parents o then
        match fuel, lod_parent o with
        | S fuel', Some parent =>
            let count := use_count h population [offspring; parent; m] in
            let m' :=
              if (count parent <? count offspring)%nat then offspring
              else if (count offspring <? count parent)%nat then parent
              else m in
            mrca_loop fuel' h population parent m'
        | _, _ => None
        end
      else Some m
  end.

(** [mrca(ea)]; the assertion on an empty population fails. *)
Definition mrca (fuel : nat) (h : heap) (population : list ptr) : option ptr :=
  match population with
  | [] => None
  | first :: _ => mrca_loop fuel h population first first
  end.

(** [mrca_lineage(ea)]: [_lod = lineage(mrca(ea))]. *)
Definition mrca_lineage (fuel : nat) (h : heap) (population : list ptr)
  : option (list ptr) :=
  match mrca fuel h population with
  | Some m => lineage fuel h m
  | None => None
  end.

(** *** [track_fixation_events] *)

(** Modelled from the spec: [put<FIXATION_TIME>(t, ind)] and
    [exists<FIXATION_TIME>(ind)] are declared outside this file; the
    specification gives an individual an optional fixation time, unset at
    birth, and [put] sets it. *)
Definition put_fixation_time (t : Z) (o : individual) : individual :=
  mkInd (repr o) (lod_parents o) (Some t).

(** The loop over the reversed lineage, with its [break]. *)
Fixpoint stamp_walk (t : Z) (rlod : list ptr) (h : heap) : heap :=
  match rlod with
  | [] => h
  | p :: rest =>
      match h !! p with
      | Some o =>
          match fixation_time o with
          | None => stamp_walk t rest (<[p := put_fixation_time t o]> h)
          | Some _ => h
          end
      | None => h
      end
  end.

Definition track_fixation_events (fuel : nat) (h : heap) (population : list ptr)
    (current_update : Z) : option heap :=
  match mrca_lineage fuel h population with
  | Some lod => Some (stamp_walk current_update (reverse lod) h)
  | None => None
  end.

(** *** The shape of a lineage *)

(** The parent [lineage] moves to from [b]. *)
Definition first_parent (h : heap) (b : ptr) : option ptr :=
  match h !! b with
  | Some o => if has_parents o then lod_parent o else None
  | None => None
  end.

(** Each node of the list is the first parent of the next one. *)
Fixpoint linked (h : heap) (l : list ptr) : Prop :=
  match l with
  | a :: (b :: _) as t => first_parent h b = Some a /\ linked h t
  | _ => True
  end.

(** [height h p n]: following first parents from [p] ends, after [n] steps,
    in a node without parents. *)
Inductive height (h : heap) : ptr -> nat -> Prop :=
| height_root (p : ptr) (o : individual) :
    h !! p = Some o -> has_parents o = false -> height h p 0
| height_step (p q : ptr) (o : individual) (n : nat) :
    h !! p = Some o -> has_parents o = true -> lod_parent o = Some q ->
    height h q n -> height h p (S n).

(** *** The most recent common ancestor, in the specification's words *)

(** Following the specification: the lineage of [member] passes through [x]. *)
Definition on_lineage (fuel : nat) (h : heap) (x member : ptr) : bool :=
  match lineage fuel h member with
  | Some l => bool_decide (x ∈ l)
  | None => false
  end.

(** Following the specification: the share-count of a node is the number of
    members of the population whose lineage passes through it. *)
Definition share_count (fuel : nat) (h : heap) (population : list ptr) (x : ptr) : nat :=
  length (filter (fun member => on_lineage fuel h x member = true) population).

(** Following the specification: the deepest node that lies on the lineage of
    every member of the population: the last node of the first member's
    lineage (ancestor first) whose share-count is the size of the population. *)
Definition spec_mrca (fuel : nat) (h : heap) (population : list ptr) : option ptr :=
  match population with
  | [] => None
  | first :: _ =>
      match lineage fuel h first with
      | Some l =>
          last (filter (fun x => share_count fuel h population x = length population) l)
      | None => None
      end
  end.

(** Every individual has at most one parent. *)
Definition asexual (h : heap) : Prop :=
  map_Forall (fun _ o => (size (lod_parents o) <= 1)%nat) h.

(** *** Facts about [uniq] and [runiq] *)

Lemma same_repr_true (h : heap) (a b : ptr) :
  same_repr h a b = true <-> repr_of h a = repr_of h b.
Proof. unfold same_repr. apply bool_decide_eq_true. Qed.

Lemma same_repr_false (h : heap) (a b : ptr) :
  same_repr h a b = false <-> repr_of h a <> repr_of h b.
Proof. unfold same_repr. apply bool_decide_eq_false. Qed.

Lemma uniq_unfold (h : heap) (lod : list ptr) :
  uniq h lod = match lod with [] => [] | back :: rest => uniq_from h back rest end.
Proof. destruct lod as [|a [|b l]]; reflexivity. Qed.

(** What [uniq_from] leaves starts with a node that has the representation
    of [back], ends with the last node of the list, and is a fixed point. *)
Lemma uniq_from_spec (h : heap) (rest : list ptr) :
  forall back,
    exists x t,
      uniq_from h back rest = x :: t /\
      repr_of h x = repr_of h back /\
      last (x :: t) = last (back :: rest) /\
      uniq_from h x t = x :: t.
Proof.
  induction rest as [|i rest IH]; intros back.
  - exists back, []. cbn. auto.
  - destruct (IH i) as (x & t & Hu & Hr & Hl & Hfix). cbn [uniq_from].
    destruct (same_repr h i back) eqn:Hs.
    + exists x, t. apply same_repr_true in Hs.
      split; [exact Hu|]. split; [congruence|]. split; [exact Hl|exact Hfix].
    + exists back, (x :: t). rewrite Hu. apply same_repr_false in Hs.
      split; [reflexivity|]. split; [reflexivity|]. split.
      * change (last (back :: x :: t)) with (last (x :: t)). rewrite Hl. reflexivity.
      * cbn [uniq_from].
        replace (same_repr h x back) with false
          by (symmetry; apply same_repr_false; congruence).
        rewrite Hfix. reflexivity.
Qed.

Lemma runiq_from_spec (h : heap) (rest : list ptr) :
  forall back,
    exists x t,
      runiq_from h back rest = x :: t /\
      repr_of h x = repr_of h back /\
      last (x :: t) = last (back :: rest) /\
      (rest <> [] -> t <> []) /\
      runiq_from h x t = x :: t.
Proof.
  induction rest as [|i rest IH]; intros back.
  - exists back, []. cbn. auto.
  - destruct rest as [|j rest].
    + exists back, [i]. cbn. repeat split; auto.
    + destruct (IH i) as (x & t & Hu & Hr & Hl & Hne & Hfix).
      specialize (Hne ltac:(discriminate)).
      change (runiq_from h back (i :: j :: rest))
        with (if same_repr h i back then runiq_from h i (j :: rest)
              else back :: runiq_from h i (j :: rest)).
      destruct (same_repr h i back) eqn:Hs.
      * exists x, t. apply same_repr_true in Hs.
        split; [exact Hu|]. split; [congruence|]. split; [exact Hl|].
        split; [intros _; exact Hne|exact Hfix].
      * exists back, (x :: t). rewrite Hu. apply same_repr_false in Hs.
        split; [reflexivity|]. split; [reflexivity|].
        split; [|split; [discriminate|]].
        -- change (last (back :: x :: t)) with (last (x :: t)). rewrite Hl. reflexivity.
        -- destruct t as [|y t]; [contradiction|].
           change (runiq_from h back (x :: y :: t))
             with (if same_repr h x back then runiq_from h x (y :: t)
                   else back :: runiq_from h x (y :: t)).
           replace (same_repr h x back) with false
             by (symmetry; apply same_repr_false; congruence).
           rewrite Hfix. reflexivity.
Qed.

Lemma runiq_short (h : heap) (lod : list ptr) :
  (length lod <= 1)%nat -> runiq h lod = lod.
Proof.
  intros Hl. unfold runiq.
  replace (1 <? length lod)%nat with false by (symmetry; apply Nat.ltb_ge; lia).
  reflexivity.
Qed.

Lemma runiq_long (h : heap) (lod : list ptr) :
  (1 < length lod)%nat ->
  exists back rest,
    reverse lod = back :: rest /\ rest <> [] /\
    runiq h lod = reverse (runiq_from h back rest).
Proof.
  intros Hl. unfold runiq.
  replace (1 <? length lod)%nat with true by (symmetry; apply Nat.ltb_lt; lia).
  rewrite <- length_reverse in Hl.
  destruct (reverse lod) as [|back [|i rest]]; cbn in Hl; try lia.
  exists back, (i :: rest). repeat split. discriminate.
Qed.

(** C5 (amended): [uniq] never changes the last node of a lineage and
    [runiq] never changes its first node, the root ancestor, whatever the
    representations are; the other end may be replaced by a neighbour of equal
    representation, so that the representations at both ends are preserved;
    and either operation applied twice gives what it gives applied once. *)
Theorem uniq_runiq_ends_and_idempotence (h : heap) (lod : list ptr) :
  (last (uniq h lod) = last lod /\
   repr_of h <$> head (uniq h lod) = repr_of h <$> head lod /\
   uniq h (uniq h lod) = uniq h lod) /\
  (head (runiq h lod) = head lod /\
   repr_of h <$> last (runiq h lod) = repr_of h <$> last lod /\
   runiq h (runiq h lod) = runiq h lod).
Proof.
  split.
  - rewrite !uniq_unfold. destruct lod as [|back rest]; [auto|].
    destruct (uniq_from_spec h rest back) as (x & t & Hu & Hr & Hl & Hfix).
    rewrite Hu. cbn [head fmap option_fmap option_map].
    split; [exact Hl|]. split; [congruence|exact Hfix].
  - destruct (le_lt_dec (length lod) 1) as [Hs|Hl].
    + rewrite !runiq_short by (rewrite ?runiq_short; assumption). auto.
    + destruct (runiq_long h lod Hl) as (back & rest & Hrev & Hne & Hrun).
      destruct (runiq_from_spec h rest back) as (x & t & Hu & Hr & Hlast & Hne' & Hfix).
      specialize (Hne' Hne). rewrite Hrun, Hu.
      split; [|split].
      * rewrite head_reverse, Hlast, <- Hrev, last_reverse. reflexivity.
      * rewrite last_reverse, <- (head_reverse lod), Hrev. cbn. congruence.
      * destruct (runiq_long h (reverse (x :: t))) as (b' & r' & Hrev' & _ & Hrun').
        { rewrite length_reverse. destruct t; [contradiction|cbn; lia]. }
        rewrite reverse_involutive in Hrev'. injection Hrev' as <- <-.
        rewrite Hrun', Hfix. reflexivity.
Qed.

(** *** Facts about [lineage] *)

Lemma fold_min_spec (l : list positive) (q : positive) :
  foldr (fun x acc => Some (match acc with Some y => Pos.min x y | None => x end))
        None l = Some q ->
  q ∈ l /\ forall y, y ∈ l -> (q <= y)%positive.
Proof.
  revert q. induction l as [|x l IH]; intros q Hq; [discriminate|].
  cbn in Hq.
  destruct (foldr _ None l) as [m|] eqn:Hm.
  - destruct (IH m eq_refl) as [Hin Hle]. injection Hq as <-. split.
    + destruct (Pos.min_spec x m) as [[_ ->]|[_ ->]]; [left|right; exact Hin].
    + intros y Hy. apply elem_of_cons in Hy as [->|Hy].
      * apply Pos.le_min_l.
      * etransitivity; [apply Pos.le_min_r|apply Hle, Hy].
  - injection Hq as <-. destruct l as [|z l]; [|discriminate].
    split; [left|]. intros y Hy. apply list_elem_of_singleton in Hy as ->. reflexivity.
Qed.

(** [*begin()] is an element of the set, the least by address. *)
Lemma set_begin_least (s : gset positive) (q : positive) :
  set_begin s = Some q -> q ∈ s /\ forall y, y ∈ s -> (q <= y)%positive.
Proof.
  intros Hq. apply fold_min_spec in Hq as [Hin Hle]. split.
  - apply elem_of_elements, Hin.
  - intros y Hy. apply Hle, elem_of_elements, Hy.
Qed.

Lemma has_parents_lod_parent (o : individual) :
  has_parents o = true -> exists q, lod_parent o = Some q.
Proof.
  unfold has_parents, lod_parent, set_begin, size, set_size. cbn.
  intros Hs.
  destruct (elements (lod_parents o)) as [|x l]; cbn in *; [discriminate|]. eauto.
Qed.

Lemma height_functional (h : heap) (p : ptr) (n m : nat) :
  height h p n -> height h p m -> n = m.
Proof.
  intros Hn. revert m. induction Hn as [p o Hp Hno|p q o n Hp Hyes Hq _ IH];
    intros m Hm; inversion Hm; subst; try congruence.
  f_equal. apply IH. congruence.
Qed.

Lemma height_in_heap (h : heap) (p : ptr) (n : nat) :
  height h p n -> is_Some (h !! p).
Proof. destruct 1; eauto. Qed.

Lemma linked_snoc (h : heap) (l : list ptr) (q p : ptr) :
  linked h (l ++ [q]) -> first_parent h p = Some q -> linked h ((l ++ [q]) ++ [p]).
Proof.
  induction l as [|a l IH]; intros Hl Hp; [cbn; auto|].
  destruct l as [|b l].
  - cbn in *. tauto.
  - destruct Hl as [Hab Hl]. split; [exact Hab|]. apply IH; assumption.
Qed.

Lemma lineage_loop_unfold (h : heap) (fuel : nat) (p : ptr) (lod : list ptr) :
  lineage_loop fuel h p lod =
  match h !! p with
  | None => None
  | Some o =>
      if has_parents o then
        match fuel, lod_parent o with
        | S fuel', Some q => lineage_loop fuel' h q (q :: lod)
        | _, _ => None
        end
      else Some lod
  end.
Proof. destruct fuel; reflexivity. Qed.

(** What [lineage_loop] returns: the nodes pushed in front of [lod] are the
    ancestors of [p] along first parents, up to a node without parents. *)
Lemma lineage_loop_spec (h : heap) (fuel : nat) :
  forall p lod res,
    lineage_loop fuel h p lod = Some res ->
    exists pre,
      res = pre ++ lod /\
      height h p (length pre) /\
      (forall i q, (pre ++ [p]) !! i = Some q -> height h q i) /\
      linked h (pre ++ [p]).
Proof.
  induction fuel as [|fuel IH]; intros p lod res Hrun;
    rewrite lineage_loop_unfold in Hrun;
    destruct (h !! p) as [o|] eqn:Hp; try discriminate;
    destruct (has_parents o) eqn:Hhas; try discriminate.
  - injection Hrun as <-. exists []. cbn. split; [reflexivity|].
    split; [econstructor; eauto|]. split; [|trivial].
    intros [|i] q Hq; cbn in Hq; [|discriminate]. injection Hq as <-.
    econstructor; eauto.
  - destruct (lod_parent o) as [q|] eqn:Hq; [|discriminate].
    destruct (IH q (q :: lod) res Hrun) as (pre & -> & Hh & Hall & Hlink).
    exists (pre ++ [q]).
    assert (Hhp : height h p (S (length pre))) by (econstructor; eauto).
    split; [rewrite <- app_assoc; reflexivity|].
    rewrite length_app. cbn [length]. rewrite Nat.add_1_r.
    split; [exact Hhp|]. split.
    + intros i x Hx.
      destruct (decide (i < length (pre ++ [q]))%nat) as [Hlt|Hge].
      * rewrite lookup_app_l in Hx by exact Hlt. apply Hall, Hx.
      * rewrite lookup_app_r in Hx by lia.
        rewrite length_app in *. cbn [length] in *.
        destruct (i - (length pre + 1))%nat as [|k] eqn:Hk; cbn in Hx; [|discriminate].
        injection Hx as <-. replace i with (S (length pre)) by lia. exact Hhp.
    + apply linked_snoc; [exact Hlink|]. unfold first_parent. rewrite Hp, Hhas. exact Hq.
  - injection Hrun as <-. exists []. cbn. split; [reflexivity|].
    split; [econstructor; eauto|]. split; [|trivial].
    intros [|i] q Hq; cbn in Hq; [|discriminate]. injection Hq as <-.
    econstructor; eauto.
Qed.

Lemma lineage_loop_complete (h : heap) (p : ptr) (n : nat) :
  height h p n ->
  forall fuel lod, (n <= fuel)%nat -> is_Some (lineage_loop fuel h p lod).
Proof.
  induction 1 as [p o Hp Hno|p q o n Hp Hyes Hq _ IH]; intros fuel lod Hfuel.
  - rewrite lineage_loop_unfold, Hp, Hno. eauto.
  - destruct fuel as [|fuel]; [lia|]. rewrite lineage_loop_unfold, Hp, Hyes, Hq.
    apply IH. lia.
Qed.

(** A lineage visits no node twice. *)
Lemma lineage_NoDup (h : heap) (fuel : nat) (p : ptr) (l : list ptr) :
  lineage fuel h p = Some l -> NoDup l.
Proof.
  unfold lineage. intros Hrun.
  destruct (lineage_loop_spec h fuel p [p] l Hrun) as (pre & -> & _ & Hall & _).
  apply NoDup_alt. intros i j x Hi Hj.
  eapply height_functional; eauto.
Qed.

Lemma lineage_in_heap (h : heap) (fuel : nat) (p : ptr) (l : list ptr) :
  lineage fuel h p = Some l -> forall q, q ∈ l -> is_Some (h !! q).
Proof.
  unfold lineage. intros Hrun q Hq.
  destruct (lineage_loop_spec h fuel p [p] l Hrun) as (pre & -> & _ & Hall & _).
  apply list_elem_of_lookup in Hq as [i Hi].
  eapply height_in_heap, Hall, Hi.
Qed.

(** In a heap where parents are in memory and are ranked below their
    offspring (no cycle), every node has a height, at most its rank. *)
Lemma height_exists (h : heap) (rank : ptr -> nat) :
  (forall q o x, h !! q = Some o -> x ∈ lod_parents o -> is_Some (h !! x)) ->
  (forall q o x, h !! q = Some o -> x ∈ lod_parents o -> (rank x < rank q)%nat) ->
  forall k p, (rank p < k)%nat -> is_Some (h !! p) ->
    exists n, (n <= rank p)%nat /\ height h p n.
Proof.
  intros Hclosed Hrank k. induction k as [|k IH]; intros p Hk [o Hp]; [lia|].
  destruct (has_parents o) eqn:Hhas.
  - destruct (has_parents_lod_parent o Hhas) as [q Hq].
    destruct (set_begin_least _ _ Hq) as [Hin _].
    pose proof (Hrank p o q Hp Hin) as Hlt.
    destruct (IH q) as (n & Hn & Hh); [lia|eapply Hclosed; eauto|].
    exists (S n). split; [lia|]. econstructor; eauto.
  - exists 0%nat. split; [lia|]. econstructor; eauto.
Qed.

(** C7 (amended): [lineage] has no failure for several parents. In a heap
    where parents are in memory and ranked below their offspring, it returns,
    for every individual and whatever the number of parents of the nodes it
    meets, the chain that ends in the individual, starts at a node without
    parents, and moves from each node to the first element of its parent
    set. *)
Theorem lineage_follows_first_parents (h : heap) (rank : ptr -> nat) (p : ptr) :
  (forall q o x, h !! q = Some o -> x ∈ lod_parents o -> is_Some (h !! x)) ->
  (forall q o x, h !! q = Some o -> x ∈ lod_parents o -> (rank x < rank q)%nat) ->
  is_Some (h !! p) ->
  exists l root o,
    lineage (rank p) h p = Some l /\
    last l = Some p /\
    head l = Some root /\ h !! root = Some o /\ has_parents o = false /\
    linked h l.
Proof.
  intros Hclosed Hrank Hp.
  destruct (height_exists h rank Hclosed Hrank (S (rank p)) p ltac:(lia) Hp)
    as (n & Hn & Hh).
  destruct (lineage_loop_complete h p n Hh (rank p) [p] Hn) as [l Hl].
  destruct (lineage_loop_spec h (rank p) p [p] l Hl) as (pre & -> & _ & Hall & Hlink).
  assert (Hhead : exists root, head (pre ++ [p]) = Some root).
  { destruct pre; cbn; eauto. }
  destruct Hhead as [root Hroot].
  pose proof (Hall 0%nat root ltac:(rewrite <- head_lookup; exact Hroot)) as Hr.
  inversion Hr as [r o Ho Hno|]; subst.
  exists (pre ++ [p]), root, o. unfold lineage.
  repeat split; try assumption. apply last_snoc.
Qed.

(** *** Facts about [track_fixation_events] *)

(** A fixation time that exists is left as it is. *)
Lemma stamp_walk_keeps (t : Z) (rlod : list ptr) :
  forall (h : heap) (p : ptr) (o : individual),
    h !! p = Some o -> is_Some (fixation_time o) ->
    stamp_walk t rlod h !! p = Some o.
Proof.
  induction rlod as [|q rest IH]; intros h p o Hp Hset; cbn; [exact Hp|].
  destruct (h !! q) as [oq|] eqn:Hq; [|exact Hp].
  destruct (fixation_time oq) eqn:Hf; [exact Hp|].
  apply IH; [|exact Hset].
  rewrite lookup_insert_ne; [exact Hp|].
  intros ->. rewrite Hp in Hq. injection Hq as ->. rewrite Hf in Hset.
  destruct Hset; discriminate.
Qed.

(** The walk stamps the nodes in front of the first stamped one, and only
    them. *)
Lemma stamp_walk_spec (t : Z) (rlod : list ptr) :
  forall h : heap,
    NoDup rlod -> (forall q, q ∈ rlod -> is_Some (h !! q)) ->
    exists pre post,
      rlod = pre ++ post /\
      (forall q, q ∈ pre ->
         exists o, h !! q = Some o /\ fixation_time o = None /\
                   stamp_walk t rlod h !! q = Some (put_fixation_time t o)) /\
      (post = [] \/
       exists q rest o, post = q :: rest /\ h !! q = Some o /\
                        is_Some (fixation_time o)) /\
      (forall q, q ∉ pre -> stamp_walk t rlod h !! q = h !! q).
Proof.
  induction rlod as [|p rest IH]; intros h Hnd Hin.
  - exists [], []. cbn. repeat split; auto. intros q Hq. inversion Hq.
  - apply NoDup_cons in Hnd as [Hp Hnd].
    destruct (Hin p ltac:(left)) as [o Ho]. cbn. rewrite Ho.
    destruct (fixation_time o) as [t0|] eqn:Hf.
    + exists [], (p :: rest). repeat split; auto.
      * intros q Hq. inversion Hq.
      * right. exists p, rest, o. rewrite Hf. eauto.
    + destruct (IH (<[p := put_fixation_time t o]> h) Hnd)
        as (pre & post & -> & Hpre & Hpost & Hother).
      { intros q Hq. destruct (decide (q = p)) as [->|Hne].
        - rewrite lookup_insert_eq. eauto.
        - rewrite lookup_insert_ne by congruence. apply Hin. right. exact Hq. }
      assert (Hnot : p ∉ pre) by (intros Hx; apply Hp, elem_of_app; auto).
      exists (p :: pre), post. split; [reflexivity|]. split; [|split].
      * intros q Hq. apply elem_of_cons in Hq as [->|Hq].
        -- exists o. rewrite (Hother p Hnot), lookup_insert_eq. auto.
        -- destruct (Hpre q Hq) as (oq & Hoq & Hfq & Hres).
           assert (q <> p) by (intros ->; contradiction).
           rewrite lookup_insert_ne in Hoq by congruence. eauto.
      * destruct Hpost as [->|(q & r & oq & -> & Hoq & Hfq)]; [left; reflexivity|].
        right. exists q, r, oq. split; [reflexivity|]. split; [|exact Hfq].
        assert (q <> p).
        { intros ->. apply Hp, elem_of_app. right. left. }
        rewrite lookup_insert_ne in Hoq by congruence. exact Hoq.
      * intros q Hq. rewrite not_elem_of_cons in Hq. destruct Hq as [Hne Hq].
        rewrite (Hother q Hq). apply lookup_insert_ne. congruence.
Qed.

(** [remove_default_ancestor()]: [_lod.erase(_lod.begin())]; erasing at
    [begin()] of an empty list is undefined. *)
Definition remove_default_ancestor (lod : list ptr) : option (list ptr) :=
  match lod with
  | [] => None
  | _ :: rest => Some rest
  end.

(** *** The inheritance event and further predicates *)

(** [lod_event::operator()]: each of the parents is inserted into the parent
    set of the offspring. *)
Definition lod_event (parents : list ptr) (offspring : ptr) (h : heap) : heap :=
  alter (fun o => mkInd (repr o)
                        (foldl (fun s p => s ∪ {[p]}) (lod_parents o) parents)
                        (fixation_time o))
        offspring h.

(** No two neighbours of the list have equal representations. *)
Fixpoint distinct_neighbours (h : heap) (l : list ptr) : Prop :=
  match l with
  | a :: (b :: _) as t => repr_of h a <> repr_of h b /\ distinct_neighbours h t
  | _ => True
  end.

(** The individual [p] points to has a fixation time. *)
Definition fixed (h : heap) (p : ptr) : Prop :=
  exists o, h !! p = Some o /\ is_Some (fixation_time o).

(** The first parent of an individual with a fixation time has one too. *)
Definition fixed_upward (h : heap) : Prop :=
  forall p q, fixed h p -> first_parent h p = Some q -> fixed h q.

(** *** Further properties of [lineage] *)

Lemma lineage_loop_fuel_S (h : heap) (fuel : nat) :
  forall p lod res,
    lineage_loop fuel h p lod = Some res ->
    lineage_loop (S fuel) h p lod = Some res.
Proof.
  induction fuel as [|fuel IH]; intros p lod res Hrun;
    rewrite lineage_loop_unfold in Hrun; rewrite lineage_loop_unfold;
    destruct (h !! p) as [o|]; try discriminate;
    destruct (has_parents o); try discriminate; try exact Hrun.
  destruct (lod_parent o) as [q|]; [|discriminate].
  apply IH. exact Hrun.
Qed.

(** The list [lineage_loop] pushes in front of [lod] does not depend on
    [lod], and the walk from any node met on the way pushes the part of it in
    front of that node. *)
Lemma lineage_loop_prefix (h : heap) (fuel : nat) :
  forall p lod pre,
    lineage_loop fuel h p lod = Some (pre ++ lod) ->
    forall i q lod',
      (pre ++ [p]) !! i = Some q ->
      lineage_loop fuel h q lod' = Some (take i (pre ++ [p]) ++ lod').
Proof.
  induction fuel as [|fuel IH]; intros p lod pre Hrun i q lod' Hq;
    rewrite lineage_loop_unfold in Hrun;
    destruct (h !! p) as [o|] eqn:Hp; try discriminate;
    destruct (has_parents o) eqn:Hhas; try discriminate.
  - injection Hrun as Hrun.
    assert (pre = []) as -> by (apply (app_inv_tail lod); symmetry; exact Hrun).
    destruct i; cbn in Hq; [|discriminate]. injection Hq as <-.
    rewrite lineage_loop_unfold, Hp, Hhas. reflexivity.
  - destruct (lod_parent o) as [q0|] eqn:Hq0; [|discriminate].
    destruct (lineage_loop_spec h fuel q0 (q0 :: lod) _ Hrun) as (pre0 & Hres & _).
    assert (pre = pre0 ++ [q0]) as ->.
    { apply (app_inv_tail lod). rewrite Hres, <- app_assoc. reflexivity. }
    rewrite Hres in Hrun.
    destruct (decide (i < length (pre0 ++ [q0]))%nat) as [Hlt|Hge].
    + rewrite lookup_app_l in Hq by exact Hlt.
      rewrite take_app_le by lia.
      apply lineage_loop_fuel_S.
      exact (IH q0 (q0 :: lod) pre0 Hrun i q lod' Hq).
    + rewrite lookup_app_r in Hq by lia.
      destruct (i - length (pre0 ++ [q0]))%nat as [|k] eqn:Hk; cbn in Hq; [|discriminate].
      injection Hq as <-. assert (i = length (pre0 ++ [q0])) as -> by lia.
      rewrite take_app_length.
      rewrite lineage_loop_unfold, Hp, Hhas, Hq0.
      rewrite (IH q0 (q0 :: lod) pre0 Hrun (length pre0) q0 (q0 :: lod')).
      * rewrite take_app_length, <- app_assoc. reflexivity.
      * rewrite lookup_app_r, Nat.sub_diag by lia. reflexivity.
  - injection Hrun as Hrun.
    assert (pre = []) as -> by (apply (app_inv_tail lod); symmetry; exact Hrun).
    destruct i; cbn in Hq; [|discriminate]. injection Hq as <-.
    rewrite lineage_loop_unfold, Hp, Hhas. reflexivity.
Qed.

Lemma lineage_snoc (h : heap) (fuel : nat) (p : ptr) (l : list ptr) :
  lineage fuel h p = Some l -> exists pre, l = pre ++ [p].
Proof.
  unfold lineage. intros Hrun.
  destruct (lineage_loop_spec h fuel p [p] l Hrun) as (pre & -> & _). eauto.
Qed.

Lemma lineage_heights (h : heap) (fuel : nat) (p : ptr) (l : list ptr) :
  lineage fuel h p = Some l -> forall i q, l !! i = Some q -> height h q i.
Proof.
  unfold lineage. intros Hrun.
  destruct (lineage_loop_spec h fuel p [p] l Hrun) as (pre & -> & _ & Hall & _).
  exact Hall.
Qed.

(** The lineage of a node of a lineage is the part of it that ends there. *)
Lemma lineage_prefix (h : heap) (fuel : nat) (p q : ptr) (l : list ptr) (i : nat) :
  lineage fuel h p = Some l -> l !! i = Some q ->
  lineage fuel h q = Some (take (S i) l).
Proof.
  intros Hrun Hq. destruct (lineage_snoc h fuel p l Hrun) as [pre ->].
  unfold lineage in *.
  rewrite (lineage_loop_prefix h fuel p [p] pre Hrun i q [q] Hq).
  rewrite (take_S_r _ _ _ Hq). reflexivity.
Qed.

(** The lineage of an individual is that of its first parent, followed by
    the individual. *)
Lemma lineage_child (h : heap) (fuel : nat) (x q : ptr) (o : individual) (l : list ptr) :
  h !! x = Some o -> has_parents o = true -> lod_parent o = Some q ->
  lineage fuel h q = Some l ->
  lineage (S fuel) h x = Some (l ++ [x]).
Proof.
  intros Hx Hhas Hq Hl. destruct (lineage_snoc h fuel q l Hl) as [pre ->].
  unfold lineage in *. rewrite lineage_loop_unfold, Hx, Hhas, Hq.
  rewrite (lineage_loop_prefix h fuel q [q] pre Hl (length pre) q [q; x]).
  - rewrite take_app_length, <- app_assoc. reflexivity.
  - rewrite lookup_app_r, Nat.sub_diag by lia. reflexivity.
Qed.

(** X9: a lineage visits no node twice, and its [i]-th node is [i] steps
    along first parents away from a node without parents: it starts at a
    root, ends in the individual it was asked for, and is one node longer
    than the individual's depth. *)
Theorem lineage_nodes_distinct_and_ranked
    (h : heap) (fuel : nat) (p : ptr) (l : list ptr) :
  lineage fuel h p = Some l ->
  NoDup l /\
  (forall i q, l !! i = Some q -> height h q i) /\
  l !! (length l - 1)%nat = Some p /\
  height h p (length l - 1).
Proof.
  intros Hrun. split; [exact (lineage_NoDup h fuel p l Hrun)|].
  pose proof (lineage_heights h fuel p l Hrun) as Hall.
  destruct (lineage_snoc h fuel p l Hrun) as [pre ->].
  assert (Hlast : (pre ++ [p]) !! (length (pre ++ [p]) - 1)%nat = Some p).
  { rewrite length_app. cbn [length]. rewrite lookup_app_r by lia.
    replace (length pre + 1 - 1 - length pre)%nat with 0%nat by lia. reflexivity. }
  split; [exact Hall|]. split; [exact Hlast|]. apply Hall, Hlast.
Qed.

(** X10: the lineage of any node of a lineage is the part of that lineage
    that ends in the node: the lineages of an individual's ancestors are
    the prefixes of its own. *)
Theorem lineage_of_ancestor_is_prefix
    (h : heap) (fuel : nat) (p q : ptr) (l : list ptr) (i : nat) :
  lineage fuel h p = Some l -> l !! i = Some q ->
  lineage fuel h q = Some (take (S i) l).
Proof. apply lineage_prefix. Qed.

(** *** Further properties of [mrca] *)

Lemma mrca_loop_unfold (h : heap) (fuel : nat) (population : list ptr)
    (offspring m : ptr) :
  mrca_loop fuel h population offspring m =
  match h !! offspring with
  | None => None
  | Some o =>
      if has_parents o then
        match fuel, lod_parent o with
        | S fuel', Some parent =>
            let count := use_count h population [offspring; parent; m] in
            let m' :=
              if (count parent <? count offspring)%nat then offspring
              else if (count offspring <? count parent)%nat then parent
              else m in
            mrca_loop fuel' h population parent m'
        | _, _ => None
        end
      else Some m
  end.
Proof. destruct fuel; reflexivity. Qed.

(** Whatever the use counts are, the candidate [mrca_loop] returns is the
    one it was given or a node of the lineage of [offspring]. *)
Lemma mrca_loop_on_lineage (h : heap) (population : list ptr) (fuel : nat) :
  forall offspring m r,
    mrca_loop fuel h population offspring m = Some r ->
    exists l, lineage fuel h offspring = Some l /\ (r = m \/ r ∈ l).
Proof.
  induction fuel as [|fuel IH]; intros offspring m r Hrun;
    rewrite mrca_loop_unfold in Hrun;
    destruct (h !! offspring) as [o|] eqn:Ho; try discriminate;
    destruct (has_parents o) eqn:Hhas; try discriminate.
  - injection Hrun as <-. exists [offspring]. split; [|auto].
    unfold lineage. rewrite lineage_loop_unfold, Ho, Hhas. reflexivity.
  - destruct (lod_parent o) as [parent|] eqn:Hpar; [|discriminate].
    cbn zeta in Hrun.
    destruct (IH _ _ _ Hrun) as (l' & Hl' & Hr).
    exists (l' ++ [offspring]).
    split; [exact (lineage_child h fuel offspring parent o l' Ho Hhas Hpar Hl')|].
    destruct (lineage_snoc h fuel parent l' Hl') as [pre ->].
    destruct Hr as [Hr|Hr]; [|right; apply elem_of_app; auto].
    destruct (_ <? _)%nat in Hr.
    + right. subst r. apply elem_of_app. right. left.
    + destruct (_ <? _)%nat in Hr; [|auto].
      right. subst r. apply elem_of_app. left. apply elem_of_app. right. left.
  - injection Hrun as <-. exists [offspring]. split; [|auto].
    unfold lineage. rewrite lineage_loop_unfold, Ho, Hhas. reflexivity.
Qed.

(** X11: whatever the use counts are, [mrca] returns a node of the lineage
    of the first member of the population, and [mrca_lineage] is the part of
    that lineage that ends in it. *)
Theorem mrca_is_an_ancestor_of_the_first_member
    (h : heap) (fuel : nat) (population : list ptr) (m : ptr) :
  mrca fuel h population = Some m ->
  exists first rest l i,
    population = first :: rest /\
    lineage fuel h first = Some l /\
    l !! i = Some m /\
    mrca_lineage fuel h population = Some (take (S i) l).
Proof.
  intros Hm. destruct population as [|first rest]; [discriminate|].
  pose proof Hm as Hm'. cbn in Hm'.
  destruct (mrca_loop_on_lineage h (first :: rest) fuel first first m Hm')
    as (l & Hl & Hin).
  assert (Hml : m ∈ l).
  { destruct Hin as [->|Hin]; [|exact Hin].
    destruct (lineage_snoc h fuel first l Hl) as [pre ->].
    apply elem_of_app. right. left. }
  apply list_elem_of_lookup in Hml as [i Hi].
  exists first, rest, l, i. repeat split; try assumption.
  unfold mrca_lineage. rewrite Hm.
  exact (lineage_prefix h fuel first m l i Hl Hi).
Qed.

(** *** Further properties of [uniq] and [runiq] *)

Lemma uniq_from_sublist (h : heap) (rest : list ptr) :
  forall back, sublist (uniq_from h back rest) (back :: rest).
Proof.
  induction rest as [|i rest IH]; intros back; cbn [uniq_from]; [reflexivity|].
  destruct (same_repr h i back).
  - apply sublist_cons, IH.
  - apply sublist_skip, IH.
Qed.

Lemma uniq_from_distinct (h : heap) (rest : list ptr) :
  forall back, distinct_neighbours h (uniq_from h back rest).
Proof.
  induction rest as [|i rest IH]; intros back; cbn [uniq_from]; [exact I|].
  destruct (same_repr h i back) eqn:Hs; [apply IH|].
  destruct (uniq_from_spec h rest i) as (x & t & Hu & Hr & _).
  specialize (IH i). rewrite Hu in *. split; [|exact IH].
  apply same_repr_false in Hs. congruence.
Qed.

Lemma uniq_from_fixed (h : heap) (rest : list ptr) :
  forall back,
    distinct_neighbours h (back :: rest) -> uniq_from h back rest = back :: rest.
Proof.
  induction rest as [|i rest IH]; intros back Hd; [reflexivity|].
  destruct Hd as [Hne Hd]. cbn [uniq_from].
  replace (same_repr h i back) with false
    by (symmetry; apply same_repr_false; congruence).
  rewrite (IH i Hd). reflexivity.
Qed.

(** X12: [uniq] only erases: what it leaves is a sublist of the lineage, in
    which no two neighbours have equal representations; and a lineage
    without such neighbours is left as it is. *)
Theorem uniq_leaves_distinct_neighbours (h : heap) (lod : list ptr) :
  sublist (uniq h lod) lod /\
  distinct_neighbours h (uniq h lod) /\
  (distinct_neighbours h lod -> uniq h lod = lod).
Proof.
  rewrite uniq_unfold. destruct lod as [|back rest].
  - repeat split. constructor.
  - split; [apply uniq_from_sublist|]. split; [apply uniq_from_distinct|].
    apply uniq_from_fixed.
Qed.

(** The loop of [runiq] is the loop of [uniq] on all but the last element of
    what it reads, the root. *)
Lemma runiq_from_uniq_from (h : heap) (rest : list ptr) (x : ptr) :
  forall back,
    runiq_from h back (rest ++ [x]) = uniq_from h back rest ++ [x].
Proof.
  induction rest as [|i rest IH]; intros back; [reflexivity|].
  change (runiq_from h back ((i :: rest) ++ [x]))
    with (match rest ++ [x] with
          | [] => [back; i]
          | _ :: _ =>
              if same_repr h i back then runiq_from h i (rest ++ [x])
              else back :: runiq_from h i (rest ++ [x])
          end).
  cbn [uniq_from].
  destruct (rest ++ [x]) as [|y t] eqn:E.
  - destruct rest; discriminate.
  - rewrite IH. destruct (same_repr h i back); reflexivity.
Qed.

(** X13: [runiq] is [uniq] run backwards behind the root: it keeps the first
    node and applies [uniq] to the rest of the lineage read from its end. *)
Theorem runiq_is_uniq_backwards_behind_the_root
    (h : heap) (root : ptr) (lod : list ptr) :
  runiq h (root :: lod) = root :: reverse (uniq h (reverse lod)).
Proof.
  destruct lod as [|a lod]; [reflexivity|].
  unfold runiq.
  replace (1 <? length (root :: a :: lod))%nat with true by reflexivity.
  rewrite reverse_cons.
  destruct (reverse (a :: lod)) as [|back rest] eqn:E.
  - apply (f_equal length) in E. rewrite length_reverse in E. discriminate.
  - cbn [app]. rewrite runiq_from_uniq_from, reverse_snoc, uniq_unfold. reflexivity.
Qed.

(** *** Properties of the inheritance event *)

Lemma foldl_insert_parents (parents : list ptr) :
  forall s : gset positive,
    foldl (fun s p => s ∪ {[p]}) s parents = s ∪ list_to_set parents.
Proof.
  induction parents as [|p parents IH]; intros s; cbn.
  - rewrite (right_id_L ∅ (∪)). reflexivity.
  - rewrite IH, (assoc_L (∪)). reflexivity.
Qed.

Lemma lod_event_lookup (parents : list ptr) (x : ptr) (h : heap) :
  lod_event parents x h !! x =
  (fun o => mkInd (repr o) (lod_parents o ∪ list_to_set parents) (fixation_time o))
    <$> h !! x.
Proof.
  unfold lod_event. rewrite lookup_alter_eq.
  destruct (h !! x) as [o|]; cbn; [|reflexivity].
  rewrite foldl_insert_parents. reflexivity.
Qed.

(** X14: the inheritance event adds the parents to the parent set of the
    offspring and changes nothing else: not the offspring's representation or
    fixation time, and no other individual. The parent set being a set, a
    second call for the same birth changes nothing. *)
Theorem lod_event_adds_parents_once (parents : list ptr) (x : ptr) (h : heap) :
  (forall y, y <> x -> lod_event parents x h !! y = h !! y) /\
  (forall o, h !! x = Some o ->
     exists o', lod_event parents x h !! x = Some o' /\
                lod_parents o' = lod_parents o ∪ list_to_set parents /\
                repr o' = repr o /\ fixation_time o' = fixation_time o) /\
  lod_event parents x (lod_event parents x h) = lod_event parents x h.
Proof.
  split; [|split].
  - intros y Hy. unfold lod_event. apply lookup_alter_ne. congruence.
  - intros o Ho. rewrite lod_event_lookup, Ho. cbn. eauto.
  - apply map_eq. intros y. destruct (decide (y = x)) as [->|Hy].
    + rewrite !lod_event_lookup. destruct (h !! x) as [o|]; cbn; [|reflexivity].
      do 2 f_equal. rewrite <- (assoc_L (∪)), (idemp_L (∪)). reflexivity.
    + unfold lod_event. rewrite !lookup_alter_ne by congruence. reflexivity.
Qed.

(** A walk that does not meet [x] does not depend on the individual at [x]. *)
Lemma lineage_loop_frame (h : heap) (f : individual -> individual) (x : ptr)
    (fuel : nat) :
  forall p lod pre,
    lineage_loop fuel h p lod = Some (pre ++ lod) ->
    x ∉ pre ++ [p] ->
    lineage_loop fuel (alter f x h) p lod = Some (pre ++ lod).
Proof.
  induction fuel as [|fuel IH]; intros p lod pre Hrun Hx;
    rewrite lineage_loop_unfold in Hrun; rewrite lineage_loop_unfold;
    (rewrite lookup_alter_ne by (intros ->; apply Hx, elem_of_app; right; left));
    destruct (h !! p) as [o|] eqn:Hp; try discriminate;
    destruct (has_parents o) eqn:Hhas; try discriminate; try exact Hrun.
  destruct (lod_parent o) as [q0|] eqn:Hq0; [|discriminate].
  destruct (lineage_loop_spec h fuel q0 (q0 :: lod) _ Hrun) as (pre0 & Hres & _).
  assert (pre = pre0 ++ [q0]) as ->.
  { apply (app_inv_tail lod). rewrite Hres, <- app_assoc. reflexivity. }
  rewrite Hres in Hrun. rewrite Hres.
  apply IH; [exact Hrun|].
  intros Hin. apply Hx, elem_of_app. left. exact Hin.
Qed.

(** X15: birth extends the lineage: once the inheritance event has given a
    new individual, so far without parents, its one parent, the lineage of
    the individual is the lineage of the parent followed by the individual. *)
Theorem newborn_lineage_extends_the_parents
    (h : heap) (fuel : nat) (x q : ptr) (o : individual) (l : list ptr) :
  h !! x = Some o -> lod_parents o = ∅ ->
  lineage fuel h q = Some l -> x ∉ l ->
  lineage (S fuel) (lod_event [q] x h) x = Some (l ++ [x]).
Proof.
  intros Hx Hno Hl Hfresh.
  pose proof (lod_event_lookup [q] x h) as Hlook. rewrite Hx in Hlook. cbn in Hlook.
  rewrite Hno in Hlook.
  rewrite (left_id_L ∅ (∪)), (right_id_L ∅ (∪)) in Hlook.
  eapply lineage_child; [exact Hlook| | |].
  - unfold has_parents. cbn. rewrite size_singleton. reflexivity.
  - unfold lod_parent, set_begin. cbn. rewrite elements_singleton. reflexivity.
  - destruct (lineage_snoc h fuel q l Hl) as [pre ->].
    unfold lineage in *. unfold lod_event.
    apply (lineage_loop_frame h _ x fuel q [q] pre Hl Hfresh).
Qed.

(** *** Further properties of [track_fixation_events] *)

Lemma linked_lookup (h : heap) (l : list ptr) :
  linked h l ->
  forall i a b, l !! i = Some a -> l !! S i = Some b -> first_parent h b = Some a.
Proof.
  induction l as [|x l IH]; intros Hl i a b Ha Hb; [discriminate|].
  destruct l as [|y l]; [destruct i; discriminate|].
  destruct Hl as [Hxy Hl]. destruct i as [|i].
  - cbn in Ha, Hb. congruence.
  - exact (IH Hl i a b Ha Hb).
Qed.

Lemma lineage_linked (h : heap) (fuel : nat) (p : ptr) (l : list ptr) :
  lineage fuel h p = Some l -> linked h l.
Proof.
  unfold lineage. intros Hrun.
  destruct (lineage_loop_spec h fuel p [p] l Hrun) as (pre & -> & _ & _ & Hl).
  exact Hl.
Qed.

(** Read from its end, a lineage goes from each node to its first parent. *)
Lemma lineage_reverse_step (h : heap) (fuel : nat) (p : ptr) (l : list ptr) :
  lineage fuel h p = Some l ->
  forall j a b,
    reverse l !! j = Some a -> reverse l !! S j = Some b ->
    first_parent h a = Some b.
Proof.
  intros Hrun j a b Ha Hb.
  pose proof (lookup_lt_Some _ _ _ Hb) as Hlt. rewrite length_reverse in Hlt.
  rewrite reverse_lookup in Ha by lia. rewrite reverse_lookup in Hb by lia.
  replace (length l - S j)%nat with (S (length l - S (S j))) in Ha by lia.
  exact (linked_lookup h l (lineage_linked h fuel p l Hrun) _ b a Hb Ha).
Qed.

Lemma lineage_reverse_end (h : heap) (fuel : nat) (p : ptr) (l : list ptr) :
  lineage fuel h p = Some l ->
  forall j a,
    reverse l !! j = Some a -> reverse l !! S j = None ->
    first_parent h a = None.
Proof.
  intros Hrun j a Ha Hb.
  pose proof (lookup_lt_Some _ _ _ Ha) as Hlt. rewrite length_reverse in Hlt.
  apply lookup_ge_None_1 in Hb. rewrite length_reverse in Hb.
  rewrite reverse_lookup in Ha by lia.
  replace (length l - S j)%nat with 0%nat in Ha by lia.
  pose proof (lineage_heights h fuel p l Hrun 0%nat a Ha) as Hh.
  inversion Hh as [r o Ho Hno|]; subst.
  unfold first_parent. rewrite Ho, Hno. reflexivity.
Qed.

(** Stamping leaves the parent sets as they are. *)
Lemma stamp_walk_parents (t : Z) (rlod : list ptr) :
  forall h : heap, lod_parents <$> stamp_walk t rlod h = lod_parents <$> h.
Proof.
  induction rlod as [|p rest IH]; intros h; cbn; [reflexivity|].
  destruct (h !! p) as [o|] eqn:Hp; [|reflexivity].
  destruct (fixation_time o); [reflexivity|].
  rewrite IH, fmap_insert. apply insert_id.
  rewrite lookup_fmap, Hp. reflexivity.
Qed.

Lemma same_parents_lookup (h h' : heap) (p : ptr) :
  lod_parents <$> h' = lod_parents <$> h ->
  lod_parents <$> (h' !! p) = lod_parents <$> (h !! p).
Proof. intros E. rewrite <- !lookup_fmap, E. reflexivity. Qed.

Lemma first_parent_ext (h h' : heap) (p : ptr) :
  lod_parents <$> h' = lod_parents <$> h ->
  first_parent h' p = first_parent h p.
Proof.
  intros E. pose proof (same_parents_lookup h h' p E) as Hp.
  unfold first_parent, has_parents, lod_parent.
  destruct (h' !! p) as [o'|], (h !! p) as [o|]; cbn in Hp; try discriminate;
    [|reflexivity].
  injection Hp as ->. reflexivity.
Qed.

(** What the tracker does to the heap, with the walk it made. *)
Lemma tracker_walk (fuel : nat) (h h' : heap) (population : list ptr) (t : Z) :
  track_fixation_events fuel h population t = Some h' ->
  exists m lod pre post,
    mrca fuel h population = Some m /\
    lineage fuel h m = Some lod /\
    h' = stamp_walk t (reverse lod) h /\
    reverse lod = pre ++ post /\
    (forall q, q ∈ pre -> fixed h' q) /\
    (post = [] \/ exists q rest, post = q :: rest /\ fixed h q) /\
    (forall q, q ∉ pre -> h' !! q = h !! q).
Proof.
  unfold track_fixation_events, mrca_lineage. intros Hrun.
  destruct (mrca fuel h population) as [m|]; [|discriminate].
  destruct (lineage fuel h m) as [lod|] eqn:Hlod; [|discriminate].
  injection Hrun as <-.
  destruct (stamp_walk_spec t (reverse lod) h)
    as (pre & post & Hsplit & Hpre & Hpost & Hother).
  { rewrite reverse_Permutation. exact (lineage_NoDup h fuel m lod Hlod). }
  { intros q Hq. rewrite elem_of_reverse in Hq.
    exact (lineage_in_heap h fuel m lod Hlod q Hq). }
  exists m, lod, pre, post. repeat split; try assumption.
  - intros q Hq. destruct (Hpre q Hq) as (o & _ & _ & Ho').
    eexists. split; [exact Ho'|]. cbn. eauto.
  - destruct Hpost as [->|(q & rest & o & -> & Ho & Hf)]; [left; reflexivity|].
    right. exists q, rest. split; [reflexivity|]. exists o. auto.
Qed.

Lemma fixed_kept (t : Z) (rlod : list ptr) (h : heap) (q : ptr) :
  fixed h q -> fixed (stamp_walk t rlod h) q.
Proof.
  intros (o & Ho & Hf). exists o. split; [|exact Hf].
  apply stamp_walk_keeps; assumption.
Qed.

(** X16: when every individual with a fixation time has a first parent with
    one (as is the case at the start, when none has one), the tracker leaves
    every node of the lineage of [mrca] with a fixation time, and the heap in
    that same state. *)
Theorem tracker_fixes_the_whole_lineage
    (fuel : nat) (h h' : heap) (population : list ptr) (t : Z) :
  fixed_upward h ->
  track_fixation_events fuel h population t = Some h' ->
  exists lod,
    mrca_lineage fuel h population = Some lod /\
    (forall q, q ∈ lod -> fixed h' q) /\
    fixed_upward h'.
Proof.
  intros Hup Hrun.
  destruct (tracker_walk fuel h h' population t Hrun)
    as (m & lod & pre & post & Hm & Hlod & -> & Hsplit & Hpre & Hpost & Hother).
  assert (Hpostfixed : forall j x, post !! j = Some x -> fixed h x).
  { destruct Hpost as [->|(q & rest & -> & Hq)]; [intros j x Hx; destruct j; discriminate|].
    intros j. induction j as [|j IHj]; intros x Hx.
    - cbn in Hx. injection Hx as <-. exact Hq.
    - destruct ((q :: rest) !! j) as [a|] eqn:Ha.
      + apply (Hup a x (IHj a eq_refl)).
        apply (lineage_reverse_step h fuel m lod Hlod (length pre + j) a x);
          rewrite Hsplit, lookup_app_r by lia.
        * replace (length pre + j - length pre)%nat with j by lia. exact Ha.
        * replace (S (length pre + j) - length pre)%nat with (S j) by lia. exact Hx.
      + apply lookup_ge_None_1 in Ha. apply lookup_lt_Some in Hx. lia. }
  assert (Hall : forall q, q ∈ reverse lod -> fixed (stamp_walk t (reverse lod) h) q).
  { intros q Hq. rewrite Hsplit in Hq. apply elem_of_app in Hq as [Hq|Hq].
    - exact (Hpre q Hq).
    - apply list_elem_of_lookup in Hq as [j Hj].
      apply fixed_kept. exact (Hpostfixed j q Hj). }
  exists lod. split; [unfold mrca_lineage; rewrite Hm; exact Hlod|].
  split; [intros q Hq; apply Hall, elem_of_reverse, Hq|].
  intros p q Hp Hpq.
  rewrite (first_parent_ext h _ p (stamp_walk_parents t (reverse lod) h)) in Hpq.
  destruct (decide (p ∈ pre)) as [Hin|Hout].
  - apply list_elem_of_lookup in Hin as [j Hj].
    assert (Hj' : reverse lod !! j = Some p).
    { rewrite Hsplit. apply lookup_app_l_Some. exact Hj. }
    destruct (reverse lod !! S j) as [b|] eqn:Hb.
    + rewrite (lineage_reverse_step h fuel m lod Hlod j p b Hj' Hb) in Hpq.
      injection Hpq as <-. apply Hall. eapply list_elem_of_lookup_2, Hb.
    + rewrite (lineage_reverse_end h fuel m lod Hlod j p Hj' Hb) in Hpq. discriminate.
  - destruct Hp as (o & Ho & Hf). rewrite (Hother p Hout) in Ho.
    apply fixed_kept. apply (Hup p q); [exists o; auto|exact Hpq].
Qed.

(** *** The tracker run twice *)

Lemma filter_fmap_length {A B : Type} (f : A -> B) (P : B -> Prop)
    `{!forall y, Decision (P y)} (l : list A) :
  length (filter P (f <$> l)) = length (filter (fun x => P (f x)) l).
Proof.
  induction l as [|a l IH]; [reflexivity|].
  cbn [fmap list_fmap]. rewrite !filter_cons.
  destruct (decide (P (f a))); cbn; rewrite IH; reflexivity.
Qed.

(** [use_count], [mrca] and [lineage] read nothing of the heap but the parent
    sets. *)
Lemma use_count_ext (h h' : heap) (population locals : list ptr) (x : ptr) :
  lod_parents <$> h' = lod_parents <$> h ->
  use_count h' population locals x = use_count h population locals x.
Proof.
  intros E. unfold use_count. f_equal. f_equal.
  pose proof (filter_fmap_length (prod_map id lod_parents)
                (fun kv : positive * gset positive => x ∈ kv.2)) as F.
  cbn in F. rewrite <- (F (map_to_list h')), <- (F (map_to_list h)).
  rewrite <- !map_to_list_fmap, E. reflexivity.
Qed.

Lemma mrca_loop_ext (h h' : heap) (population : list ptr) :
  lod_parents <$> h' = lod_parents <$> h ->
  forall fuel offspring m,
    mrca_loop fuel h' population offspring m = mrca_loop fuel h population offspring m.
Proof.
  intros E fuel. induction fuel as [|fuel IH]; intros offspring m;
    pose proof (same_parents_lookup h h' offspring E) as Hp; cbn [mrca_loop];
    destruct (h' !! offspring) as [o'|], (h !! offspring) as [o|];
    cbn in Hp; try discriminate; try reflexivity;
    injection Hp as Hp; unfold has_parents, lod_parent; rewrite Hp;
    try reflexivity.
  destruct (0 <? size (lod_parents o))%nat; [|reflexivity].
  destruct (set_begin (lod_parents o)) as [parent|]; [|reflexivity].
  cbv zeta. rewrite !(use_count_ext h h' _ _ _ E). apply IH.
Qed.

Lemma lineage_loop_ext (h h' : heap) :
  lod_parents <$> h' = lod_parents <$> h ->
  forall fuel p lod, lineage_loop fuel h' p lod = lineage_loop fuel h p lod.
Proof.
  intros E fuel. induction fuel as [|fuel IH]; intros p lod;
    pose proof (same_parents_lookup h h' p E) as Hp; cbn [lineage_loop];
    destruct (h' !! p) as [o'|], (h !! p) as [o|];
    cbn in Hp; try discriminate; try reflexivity;
    injection Hp as Hp; unfold has_parents, lod_parent; rewrite Hp;
    try reflexivity.
  destruct (0 <? size (lod_parents o))%nat; [|reflexivity].
  destruct (set_begin (lod_parents o)) as [q|]; [|reflexivity].
  apply IH.
Qed.

Lemma mrca_lineage_ext (fuel : nat) (h h' : heap) (population : list ptr) :
  lod_parents <$> h' = lod_parents <$> h ->
  mrca_lineage fuel h' population = mrca_lineage fuel h population.
Proof.
  intros E. unfold mrca_lineage, mrca, lineage.
  destruct population as [|first rest]; [reflexivity|].
  rewrite (mrca_loop_ext h h' _ E).
  destruct (mrca_loop fuel h (first :: rest) first first) as [m|]; [|reflexivity].
  apply lineage_loop_ext, E.
Qed.

(** X17: fixation times do not move the most recent common ancestor nor its
    lineage, and a second run of the tracker on the same population, at any
    later update, changes nothing: the walk stops at the ancestor itself. *)
Theorem tracker_second_run_changes_nothing
    (fuel : nat) (h h' : heap) (population : list ptr) (t t' : Z) :
  track_fixation_events fuel h population t = Some h' ->
  mrca fuel h' population = mrca fuel h population /\
  mrca_lineage fuel h' population = mrca_lineage fuel h population /\
  track_fixation_events fuel h' population t' = Some h'.
Proof.
  intros Hrun.
  destruct (tracker_walk fuel h h' population t Hrun)
    as (m & lod & pre & post & Hm & Hlod & Hh' & Hsplit & Hpre & Hpost & Hother).
  assert (E : lod_parents <$> h' = lod_parents <$> h)
    by (rewrite Hh'; apply stamp_walk_parents).
  split.
  { unfold mrca. destruct population; [reflexivity|]. apply mrca_loop_ext, E. }
  split; [apply mrca_lineage_ext, E|].
  unfold track_fixation_events. rewrite (mrca_lineage_ext fuel h h' _ E).
  unfold mrca_lineage. rewrite Hm, Hlod. f_equal.
  destruct (reverse lod) as [|a rl] eqn:Hrl; [reflexivity|].
  assert (Ha : fixed h' a).
  { destruct pre as [|a' pre'].
    - destruct Hpost as [->|(q & rest & -> & Hq)]; [discriminate|].
      cbn in Hsplit. injection Hsplit as -> _.
      rewrite Hh'. apply fixed_kept, Hq.
    - cbn in Hsplit. injection Hsplit as -> _. apply Hpre. left. }
  destruct Ha as (o & Ho & [t0 Ht0]).
  cbn. rewrite Ho, Ht0. reflexivity.
Qed.

(** *** [remove_default_ancestor] *)

(** X18: on the lineage [mrca_lineage] leaves, [remove_default_ancestor] is
    defined; it removes the one node without parents, and every node it keeps
    has parents, the first parent of each being the node before it and that
    of the first one the node removed. *)
Theorem default_ancestor_is_the_only_root
    (fuel : nat) (h : heap) (population lod : list ptr) :
  mrca_lineage fuel h population = Some lod ->
  exists root rest,
    lod = root :: rest /\
    remove_default_ancestor lod = Some rest /\
    first_parent h root = None /\
    forall i q, rest !! i = Some q ->
      first_parent h q = (root :: rest) !! i.
Proof.
  unfold mrca_lineage. intros Hrun.
  destruct (mrca fuel h population) as [m|]; [|discriminate].
  destruct (lineage_snoc h fuel m lod Hrun) as [pre Hpre].
  destruct lod as [|root rest]; [destruct pre; discriminate|].
  exists root, rest. split; [reflexivity|]. split; [reflexivity|].
  split.
  - pose proof (lineage_heights h fuel m _ Hrun 0%nat root eq_refl) as Hh.
    inversion Hh as [r o Ho Hno|]; subst.
    unfold first_parent. rewrite Ho, Hno. reflexivity.
  - intros i q Hq.
    destruct ((root :: rest) !! i) as [a|] eqn:Ha.
    + exact (linked_lookup h _ (lineage_linked h fuel m _ Hrun) i a q Ha Hq).
    + apply lookup_ge_None_1 in Ha. apply lookup_lt_Some in Hq. cbn in Ha. lia.
Qed.

(** *** The walk of the tracker *)

Lemma mrca_loop_complete (h : heap) (population : list ptr) (p : ptr) (n : nat) :
  height h p n ->
  forall fuel m, (n <= fuel)%nat -> is_Some (mrca_loop fuel h population p m).
Proof.
  induction 1 as [p o Hp Hno|p q o n Hp Hyes Hq _ IH]; intros fuel m Hfuel.
  - rewrite mrca_loop_unfold, Hp, Hno. eauto.
  - destruct fuel as [|fuel]; [lia|].
    rewrite mrca_loop_unfold, Hp, Hyes, Hq. cbv zeta. apply IH. lia.
Qed.

(** X19: in a heap where parents are in memory and ranked below their
    offspring, and for a population whose first member is in memory, [mrca]
    and the fixation tracker return. The individual [m] that [mrca] returns
    is a node of the lineage [l] of the first member, and the tracker walks
    the part of [l] that ends in [m] from [m] toward the root: it puts the
    current update on the nodes whose fixation time is unset, stops at the
    first node that has one, touches nothing else, and leaves every fixation
    time that is set as it is, so that none is set twice. *)
Theorem fixation_time_set_once_from_the_tail
    (h : heap) (rank : ptr -> nat) (fuel : nat) (first : ptr) (rest : list ptr)
    (current_update : Z) :
  (forall q o x, h !! q = Some o -> x ∈ lod_parents o -> is_Some (h !! x)) ->
  (forall q o x, h !! q = Some o -> x ∈ lod_parents o -> (rank x < rank q)%nat) ->
  is_Some (h !! first) -> (rank first <= fuel)%nat ->
  exists m l i h' pre post,
    mrca fuel h (first :: rest) = Some m /\
    lineage fuel h first = Some l /\ l !! i = Some m /\
    mrca_lineage fuel h (first :: rest) = Some (take (S i) l) /\
    track_fixation_events fuel h (first :: rest) current_update = Some h' /\
    (forall p o, h !! p = Some o -> is_Some (fixation_time o) -> h' !! p = Some o) /\
    reverse (take (S i) l) = pre ++ post /\
    (forall q, q ∈ pre ->
       exists o, h !! q = Some o /\ fixation_time o = None /\
                 h' !! q = Some (put_fixation_time current_update o)) /\
    (post = [] \/
     exists q rest' o, post = q :: rest' /\ h !! q = Some o /\
                       is_Some (fixation_time o)) /\
    (forall q, q ∉ pre -> h' !! q = h !! q).
Proof.
  intros Hclosed Hrank Hfirst Hfuel.
  destruct (height_exists h rank Hclosed Hrank (S (rank first)) first ltac:(lia) Hfirst)
    as (n & Hn & Hh).
  destruct (mrca_loop_complete h (first :: rest) first n Hh fuel first ltac:(lia))
    as [m Hm].
  destruct (mrca_loop_on_lineage h (first :: rest) fuel first first m Hm)
    as (l & Hl & Hin).
  assert (Hml : m ∈ l).
  { destruct Hin as [->|Hin]; [|exact Hin].
    destruct (lineage_snoc h fuel first l Hl) as [pre ->].
    apply elem_of_app. right. left. }
  apply list_elem_of_lookup in Hml as [i Hi].
  pose proof (lineage_prefix h fuel first m l i Hl Hi) as Hlod.
  assert (Hmrca : mrca_lineage fuel h (first :: rest) = Some (take (S i) l)).
  { unfold mrca_lineage, mrca. rewrite Hm. exact Hlod. }
  destruct (stamp_walk_spec current_update (reverse (take (S i) l)) h)
    as (pre & post & Hsplit & Hpre & Hpost & Hother).
  { rewrite reverse_Permutation. exact (lineage_NoDup h fuel m _ Hlod). }
  { intros q Hq. rewrite elem_of_reverse in Hq.
    exact (lineage_in_heap h fuel m _ Hlod q Hq). }
  exists m, l, i, (stamp_walk current_update (reverse (take (S i) l)) h), pre, post.
  split; [exact Hm|]. split; [exact Hl|]. split; [exact Hi|].
  split; [exact Hmrca|].
  split; [unfold track_fixation_events; rewrite Hmrca; reflexivity|].
  split; [intros p o Hp Hset; apply stamp_walk_keeps; assumption|].
  auto.
Qed.

End Model.

Arguments individual : clear implicits.


(** ** Concrete ancestries *)

(** An individual with a number for its representation. *)
Definition node (r : nat) (parents : list positive) (ft : option Z) : individual nat :=
  mkInd r (list_to_set parents) ft.

(** The progenitor 1 has two offspring, 2 and 3; 2 has three offspring, 4, 5
    and 6. The population is the four leaves 4, 5, 6 and 3. *)
Definition family : gmap positive (individual nat) :=
  list_to_map [(1, node 0 [] None); (2, node 1 [1] None); (3, node 2 [1] None);
               (4, node 3 [2] None); (5, node 4 [2] None); (6, node 5 [2] None)]%positive.

Definition family_population : list positive := [4; 5; 6; 3]%positive.

(** C1: on this asexual tree, where every individual in memory is an
    ancestor of a member of the population, [mrca] returns node 2, through
    which the lineage of the member 3 does not pass; the most recent common
    ancestor, the one node on the lineage of all four members, is the
    progenitor 1. *)
Theorem mrca_misses_the_progenitor :
  asexual family /\
  map_Forall (fun p _ => (0 < share_count 10 family family_population p)%nat) family /\
  mrca 10 family family_population = Some 2%positive /\
  spec_mrca 10 family family_population = Some 1%positive /\
  lineage 10 family 3%positive = Some [1; 3]%positive /\
  on_lineage 10 family 2%positive 3%positive = false /\
  share_count 10 family family_population 2%positive = 3%nat /\
  share_count 10 family family_population 1%positive = 4%nat.
Proof.
  split; [apply (bool_decide_unpack _); vm_compute; reflexivity|].
  split; [apply (bool_decide_unpack _); vm_compute; reflexivity|].
  vm_compute. repeat split; reflexivity.
Qed.

(** The same with the smallest population that has a common ancestor other
    than a member: two offspring of the progenitor. The use counts compared
    are 3 (progenitor: two parent sets and [parent]) and 3 (first member: the
    population, [offspring] and [m]), so [m] stays the first member. *)
Example mrca_of_two_siblings :
  let h : gmap positive (individual nat) :=
    list_to_map [(1, node 0 [] None); (2, node 1 [1] None); (3, node 2 [1] None)]%positive in
  mrca 10 h [2; 3]%positive = Some 2%positive /\
  spec_mrca 10 h [2; 3]%positive = Some 1%positive.
Proof. vm_compute. split; reflexivity. Qed.

(** C8: on the same tree the fixation tracker walks the lineage of node 2,
    the node [mrca] returns, where the lineage of the most recent common
    ancestor is the progenitor alone: node 2 is given the fixation time 7
    although the member 3 of the population does not descend from it. *)
Theorem fixation_time_given_beside_a_lineage :
  exists h',
    track_fixation_events 10 family family_population 7 = Some h' /\
    spec_mrca 10 family family_population = Some 1%positive /\
    lineage 10 family 1%positive = Some [1%positive] /\
    mrca_lineage 10 family family_population = Some [1; 2]%positive /\
    fixation_time <$> family !! 2%positive = Some None /\
    fixation_time <$> h' !! 2%positive = Some (Some 7) /\
    In 3%positive family_population /\
    lineage 10 family 3%positive = Some [1; 3]%positive /\
    on_lineage 10 family 2%positive 3%positive = false.
Proof.
  eexists. split; [vm_compute; reflexivity|].
  vm_compute. repeat split; try reflexivity. auto.
Qed.

(** Where the common ancestor has a parent of its own, [mrca] finds it:
    1 <- 2 <- 3, with 3 the parent of 4 and 5, and 4 the parent of 6. *)
Definition stem : gmap positive (individual nat) :=
  list_to_map [(1, node 7 [] (Some 3%Z)); (2, node 7 [1] None); (3, node 8 [2] None);
               (4, node 8 [3] None); (5, node 9 [3] None); (6, node 9 [4] None)]%positive.

Example mrca_below_the_progenitor :
  mrca 10 stem [6; 5]%positive = Some 3%positive /\
  spec_mrca 10 stem [6; 5]%positive = Some 3%positive /\
  mrca_lineage 10 stem [6; 5]%positive = Some [1; 2; 3]%positive.
Proof. vm_compute. repeat split; reflexivity. Qed.

(** C5, as stated, fails: the lineage of 6 in [stem] is 1, 2, 3, 4, 6, with
    representations 7, 7, 8, 8, 9. [uniq] erases node 1 and the lineage then
    starts at node 2. With the lineage of 4, [runiq] erases the last node, 4,
    and the lineage then ends at node 3. *)
Lemma uniq_runiq_move_an_end :
  lineage 10 stem 6%positive = Some [1; 2; 3; 4; 6]%positive /\
  uniq stem [1; 2; 3; 4; 6]%positive = [2; 4; 6]%positive /\
  head (uniq stem [1; 2; 3; 4; 6]%positive) <> head [1; 2; 3; 4; 6]%positive /\
  lineage 10 stem 4%positive = Some [1; 2; 3; 4]%positive /\
  runiq stem [1; 2; 3; 4]%positive = [1; 2; 3]%positive /\
  last (runiq stem [1; 2; 3; 4]%positive) <> last [1; 2; 3; 4]%positive.
Proof. vm_compute. repeat split; discriminate. Qed.

(** Node 3 has the two parents 1 and 2; 4 is its offspring. *)
Definition two_parents : gmap positive (individual nat) :=
  list_to_map [(1, node 0 [] None); (2, node 1 [] None); (3, node 2 [1; 2] None);
               (4, node 3 [3] None)]%positive.

(** C7, as stated, fails: the chain of 4 passes through node 3, which has two
    parents, and [lineage] returns a chain, through the first of the two. *)
Lemma lineage_through_two_parents :
  (exists o, two_parents !! 3%positive = Some o /\ size (lod_parents o) = 2%nat) /\
  lineage 10 two_parents 4%positive = Some [1; 3; 4]%positive.
Proof.
  split; [|vm_compute; reflexivity].
  eexists. split; [vm_compute; reflexivity|]. vm_compute. reflexivity.
Qed.

Lemma lineage_follows_first_parents_witness :
  exists l root o,
    lineage (Pos.to_nat 4) two_parents 4%positive = Some l /\
    last l = Some 4%positive /\
    head l = Some root /\ two_parents !! root = Some o /\ has_parents o = false /\
    linked two_parents l.
Proof.
  assert (H : map_Forall (fun q o =>
                set_Forall (fun x => is_Some (two_parents !! x) /\
                                     (Pos.to_nat x < Pos.to_nat q)%nat)
                           (lod_parents o)) two_parents).
  { apply (bool_decide_unpack _). vm_compute. reflexivity. }
  apply (lineage_follows_first_parents two_parents Pos.to_nat 4%positive).
  - intros q o x Hq Hx. exact (proj1 (H q o Hq x Hx)).
  - intros q o x Hq Hx. exact (proj2 (H q o Hq x Hx)).
  - eexists. vm_compute. reflexivity.
Defined.

Lemma fixation_time_set_once_from_the_tail_witness :
  exists m l i h' pre post,
    mrca 10 stem [6; 5]%positive = Some m /\
    lineage 10 stem 6%positive = Some l /\ l !! i = Some m /\
    mrca_lineage 10 stem [6; 5]%positive = Some (take (S i) l) /\
    track_fixation_events 10 stem [6; 5]%positive 42 = Some h' /\
    (forall p o, stem !! p = Some o -> is_Some (fixation_time o) -> h' !! p = Some o) /\
    reverse (take (S i) l) = pre ++ post /\
    (forall q, q ∈ pre ->
       exists o, stem !! q = Some o /\ fixation_time o = None /\
                 h' !! q = Some (put_fixation_time 42 o)) /\
    (post = [] \/
     exists q rest' o, post = q :: rest' /\ stem !! q = Some o /\
                       is_Some (fixation_time o)) /\
    (forall q, q ∉ pre -> h' !! q = stem !! q).
Proof.
  assert (H : map_Forall (fun q o =>
                set_Forall (fun x => is_Some (stem !! x) /\
                                     (Pos.to_nat x < Pos.to_nat q)%nat)
                           (lod_parents o)) stem).
  { apply (bool_decide_unpack _). vm_compute. reflexivity. }
  apply (fixation_time_set_once_from_the_tail stem Pos.to_nat 10 6%positive
           [5%positive] 42).
  - intros q o x Hq Hx. exact (proj1 (H q o Hq x Hx)).
  - intros q o x Hq Hx. exact (proj2 (H q o Hq x Hx)).
  - eexists. vm_compute. reflexivity.
  - vm_compute. lia.
Defined.

Lemma lineage_nodes_distinct_and_ranked_witness :
  NoDup [1; 2; 3; 4; 6]%positive /\
  (forall i q, [1; 2; 3; 4; 6]%positive !! i = Some q -> height stem q i) /\
  [1; 2; 3; 4; 6]%positive !! 4%nat = Some 6%positive /\
  height stem 6%positive 4.
Proof.
  apply (lineage_nodes_distinct_and_ranked stem 10 6%positive [1; 2; 3; 4; 6]%positive).
  vm_compute. reflexivity.
Defined.

Lemma lineage_of_ancestor_is_prefix_witness :
  lineage 10 stem 3%positive = Some [1; 2; 3]%positive.
Proof.
  apply (lineage_of_ancestor_is_prefix stem 10 6%positive 3%positive
           [1; 2; 3; 4; 6]%positive 2).
  - vm_compute. reflexivity.
  - reflexivity.
Defined.

Lemma mrca_is_an_ancestor_of_the_first_member_witness :
  exists first rest l i,
    [6; 5]%positive = first :: rest /\
    lineage 10 stem first = Some l /\
    l !! i = Some 3%positive /\
    mrca_lineage 10 stem [6; 5]%positive = Some (take (S i) l).
Proof.
  apply (mrca_is_an_ancestor_of_the_first_member stem 10 [6; 5]%positive 3%positive).
  vm_compute. reflexivity.
Defined.

(** Node 2 of [two_parents], which has no parent, is recorded as the offspring
    of 4. *)
Lemma newborn_lineage_extends_the_parents_witness :
  lineage 11 (lod_event [4%positive] 2%positive two_parents) 2%positive
  = Some [1; 3; 4; 2]%positive.
Proof.
  apply (newborn_lineage_extends_the_parents two_parents 10 2%positive 4%positive
           (node 1 [] None) [1; 3; 4]%positive).
  - vm_compute. reflexivity.
  - reflexivity.
  - vm_compute. reflexivity.
  - apply (bool_decide_unpack _). vm_compute. reflexivity.
Defined.

(** In [stem] the progenitor alone has a fixation time. *)
Lemma stem_fixed_upward : fixed_upward stem.
Proof.
  assert (H : map_Forall (fun p o => fixation_time o = None \/
                                     first_parent stem p = None) stem).
  { apply (bool_decide_unpack _). vm_compute. reflexivity. }
  intros p q (o & Ho & Hf) Hpq.
  destruct (H p o Ho) as [E|E]; [|congruence].
  rewrite E in Hf. destruct Hf. discriminate.
Defined.

Lemma tracker_fixes_the_whole_lineage_witness :
  exists h',
    track_fixation_events 10 stem [6; 5]%positive 42 = Some h' /\
    exists lod,
      mrca_lineage 10 stem [6; 5]%positive = Some lod /\
      (forall q, q ∈ lod -> fixed h' q) /\
      fixed_upward h'.
Proof.
  eassert (E : track_fixation_events 10 stem [6; 5]%positive 42 = Some _)
    by (vm_compute; reflexivity).
  eexists. split; [exact E|].
  exact (tracker_fixes_the_whole_lineage 10 stem _ [6; 5]%positive 42
           stem_fixed_upward E).
Defined.

Lemma tracker_second_run_changes_nothing_witness :
  exists h',
    track_fixation_events 10 stem [6; 5]%positive 42 = Some h' /\
    mrca 10 h' [6; 5]%positive = mrca 10 stem [6; 5]%positive /\
    mrca_lineage 10 h' [6; 5]%positive = mrca_lineage 10 stem [6; 5]%positive /\
    track_fixation_events 10 h' [6; 5]%positive 43 = Some h'.
Proof.
  eassert (E : track_fixation_events 10 stem [6; 5]%positive 42 = Some _)
    by (vm_compute; reflexivity).
  eexists. split; [exact E|].
  exact (tracker_second_run_changes_nothing 10 stem _ [6; 5]%positive 42 43 E).
Defined.

Lemma default_ancestor_is_the_only_root_witness :
  exists root rest,
    [1; 2; 3]%positive = root :: rest /\
    remove_default_ancestor [1; 2; 3]%positive = Some rest /\
    first_parent stem root = None /\
    forall i q, rest !! i = Some q -> first_parent stem q = (root :: rest) !! i.
Proof.
  apply (default_ancestor_is_the_only_root 10 stem [6; 5]%positive [1; 2; 3]%positive).
  vm_compute. reflexivity.
Defined.

End LineOfDescent.
